(** * A block pool manager (package [memory], file [manager.go])

    The Go package hands out byte slices backed by reusable blocks whose
    sizes are [smallestBlockSize * 2^s].  This development embeds
    [NewManager], [GetBlock], [FreeBlock] and [TotalAllocations] as programs
    over the primitive memory actions the Go code performs, gives them a
    sequential semantics (one goroutine) and an interleaving semantics
    (several goroutines, the [sync.Mutex] explicit), and proves the
    properties of the pool against both.

    Conventions.
    - Go's [int] is the 64-bit two's complement integer of the usual
      targets (amd64, arm64): a [Z] with the wrap-around written out.
    - An array allocated by the manager with [make] is named [Pool k], [k]
      counting the manager's allocations; memory the callers obtained
      elsewhere is named [Foreign k].  Distinct live allocations have
      distinct addresses in Go, which is all the code relies on.
    - [make] is assumed to succeed (no out-of-memory). *)

From stdpp Require Import gmap list strings pretty.
From Stdlib Require Import ZArith Lia.

Local Open Scope Z_scope.

(** ** Machine integers *)

Definition int_bits : Z := 64.
Definition int_min : Z := - 2 ^ (int_bits - 1).

(** Two's complement wrap-around of an arithmetic result. *)
Definition wrap (z : Z) : Z := (z - int_min) mod 2 ^ int_bits + int_min.

(** ** Data model *)

(** [const smallestBlockSize = 1024] *)
Definition smallestBlockSize : Z := 1024.

(** [make([][][]byte, 21)]: the number of size classes. *)
Definition numClasses : nat := 21.

Inductive array_id : Type :=
| Pool (k : nat)
| Foreign (k : nat).

#[global] Instance array_id_eq_dec : EqDecision array_id.
Proof. solve_decision. Defined.

#[global] Instance array_id_countable : Countable array_id.
Proof.
  refine (inj_countable'
            (fun a => match a with Pool k => inl k | Foreign k => inr k end)
            (fun s => match s with inl k => Pool k | inr k => Foreign k end) _).
  intros []; reflexivity.
Defined.

(** A [*byte]: an array and an offset into it. *)
Abbreviation ptr := (array_id * nat)%type.

(** A Go slice header over a byte array. *)
Record slice : Type := mkSlice {
  sl_arr : array_id;
  sl_off : nat;
  sl_len : nat;
  sl_cap : nat
}.

#[global] Instance slice_eq_dec : EqDecision slice.
Proof. solve_decision. Defined.

(** [type Manager struct { mutex; blocks [][][]byte; used map[*byte]bool }] *)
Record Manager : Type := mkManager {
  mutex : bool;
  blocks : list (list slice);
  used : gmap ptr bool
}.

(** The memory a manager lives in: the arrays it allocated, and itself. *)
Record world : Type := mkWorld {
  heap : list (list Byte.byte);
  mgr : Manager
}.

Definition set_mgr (w : world) (m : Manager) : world := mkWorld (heap w) m.
Definition set_heap (w : world) (h : list (list Byte.byte)) : world :=
  mkWorld h (mgr w).

Inductive panic : Type :=
| IndexOutOfRange (i : Z) (len : nat)
| SliceBoundsOutOfRange (hi : Z) (cap : nat)
| MakeLenOutOfRange
| PanicString (msg : string).

(** ** Programs over primitive actions *)

(** The accesses to shared memory that the code performs. *)
Inductive prim : Type -> Type :=
| Lock : prim unit
| Unlock : prim unit
| LoadBlocks : prim (list (list slice))
| StoreBlocks (s : nat) (l : list slice) : prim unit
| UsedLoad (p : ptr) : prim (option bool)
| UsedStore (p : ptr) (v : bool) : prim unit
| UsedDelete (p : ptr) : prim unit
| Alloc (c : nat) : prim slice
| Poke (p : ptr) (v : Byte.byte) : prim unit.

Inductive prog (A : Type) : Type :=
| Done (a : A)
| Throw (e : panic)
| Spin
| Act {X : Type} (e : prim X) (k : X -> prog A).

Arguments Done {A} a.
Arguments Throw {A} e.
Arguments Spin {A}.
Arguments Act {A X} e k.

Fixpoint bind {A B : Type} (m : prog A) (f : A -> prog B) : prog B :=
  match m with
  | Done a => f a
  | Throw e => Throw e
  | Spin => Spin
  | Act e k => Act e (fun x => bind (k x) f)
  end.

(** [defer d; body]: [d] runs when [body] returns and when it panics. *)
Fixpoint defer {A : Type} (d : prog unit) (body : prog A) : prog A :=
  match body with
  | Done a => bind d (fun _ => Done a)
  | Throw e => bind d (fun _ => Throw e)
  | Spin => Spin
  | Act e k => Act e (fun x => defer d (k x))
  end.

Declare Scope prog_scope.
Delimit Scope prog_scope with prog.
Notation "x <~ m ;; k" := (bind m (fun x => k))
  (at level 100, m at next level, right associativity) : prog_scope.
Notation "m ;;; k" := (bind m (fun _ => k))
  (at level 100, right associativity) : prog_scope.
Local Open Scope prog_scope.

Definition act {X : Type} (e : prim X) : prog X := Act e Done.

(** ** The primitive actions on a world *)

Definition poke (p : ptr) (v : Byte.byte) (h : list (list Byte.byte)) :
  list (list Byte.byte) :=
  match p.1 with
  | Pool k => alter (fun a => <[p.2 := v]> a) k h
  | Foreign _ => h
  end.

Definition prim_sem {X : Type} (e : prim X) (w : world) : X * world :=
  let m := mgr w in
  match e in prim X return X * world with
  | Lock => (tt, set_mgr w (mkManager true (blocks m) (used m)))
  | Unlock => (tt, set_mgr w (mkManager false (blocks m) (used m)))
  | LoadBlocks => (blocks m, w)
  | StoreBlocks s l => (tt, set_mgr w (mkManager (mutex m) (<[s := l]> (blocks m)) (used m)))
  | UsedLoad p => (used m !! p, w)
  | UsedStore p v => (tt, set_mgr w (mkManager (mutex m) (blocks m) (<[p := v]> (used m))))
  | UsedDelete p => (tt, set_mgr w (mkManager (mutex m) (blocks m) (delete p (used m))))
  | Alloc c =>
      (mkSlice (Pool (length (heap w))) 0 c c,
       set_heap w (heap w ++ [replicate c Byte.x00]))
  | Poke p v => (tt, set_heap w (poke p v (heap w)))
  end.

(** [Lock] blocks while the mutex is held; every other action can run. *)
Definition enabled {X : Type} (e : prim X) (w : world) : bool :=
  match e with
  | Lock => negb (mutex (mgr w))
  | _ => true
  end.

(** ** Sequential semantics *)

Inductive outcome (A : Type) : Type :=
| Ret (a : A) (w : world)
| Panicked (e : panic) (w : world)
| Diverge (w : world).

Arguments Ret {A} a w.
Arguments Panicked {A} e w.
Arguments Diverge {A} w.

Definition final_world {A : Type} (o : outcome A) : world :=
  match o with
  | Ret _ w | Panicked _ w | Diverge w => w
  end.

(** One goroutine running a program to its end.  A [Lock] on a held mutex
    never returns. *)
Fixpoint run {A : Type} (p : prog A) (w : world) : outcome A :=
  match p with
  | Done a => Ret a w
  | Throw e => Panicked e w
  | Spin => Diverge w
  | Act e k =>
      if enabled e w then run (k (prim_sem e w).1) (prim_sem e w).2
      else Diverge w
  end.

(** ** The Go code *)

(** [m.mutex.Lock(); defer m.mutex.Unlock(); body] *)
Definition with_lock {A : Type} (body : prog A) : prog A :=
  Act Lock (fun _ => defer (act Unlock) body).

(** [for c < n { c *= 2; s++ }], at most [fuel] iterations. *)
Fixpoint class_loop (fuel : nat) (n c s : Z) : option (Z * Z) :=
  match fuel with
  | O => None
  | S fuel' =>
      if c <? n then class_loop fuel' n (wrap (c * 2)) (wrap (s + 1))
      else Some (c, s)
  end.

(** The class search of [GetBlock], from [c = smallestBlockSize], [s = 0].
    Sixty-four iterations decide it: see [find_class_None_forever]. *)
Definition find_class (n : Z) : option (Z * Z) :=
  class_loop 64 n smallestBlockSize 0.

(** [l[i]] with Go's bounds check. *)
Definition index {A : Type} (l : list A) (i : Z) : prog A :=
  if (i <? 0) || (Z.of_nat (length l) <=? i) then Throw (IndexOutOfRange i (length l))
  else match l !! Z.to_nat i with
       | Some x => Done x
       | None => Throw (IndexOutOfRange i (length l))
       end.

(** [m.blocks[s]] *)
Definition blocks_at (s : Z) : prog (list slice) :=
  bs <~ act LoadBlocks ;; index bs s.

(** [m.blocks[s][i]] *)
Definition block_at (s : Z) (i : nat) : prog slice :=
  l <~ blocks_at s ;; index l (Z.of_nat i).

(** [&b[0]] *)
Definition addr0 (b : slice) : prog ptr :=
  if (sl_len b =? 0)%nat then Throw (IndexOutOfRange 0 0)
  else Done (sl_arr b, sl_off b).

(** [m.used[p]] read as a value: a missing key gives [false]. *)
Definition used_get (p : ptr) : prog bool :=
  o <~ act (UsedLoad p) ;; Done (default false o).

(** [b[j] = v] *)
Definition store (b : slice) (j : nat) (v : Byte.byte) : prog unit :=
  if (j <? sl_len b)%nat then act (Poke (sl_arr b, (sl_off b + j)%nat) v)
  else Throw (IndexOutOfRange (Z.of_nat j) (sl_len b)).

(** [b[lo:hi]] for [lo = 0] *)
Definition reslice0 (b : slice) (hi : Z) : prog slice :=
  if (hi <? 0) || (Z.of_nat (sl_cap b) <? hi) then Throw (SliceBoundsOutOfRange hi (sl_cap b))
  else Done (mkSlice (sl_arr b) (sl_off b) (Z.to_nat hi) (sl_cap b)).

(** [make([]byte, c)] *)
Definition make (c : Z) : prog slice :=
  if c <? 0 then Throw MakeLenOutOfRange else act (Alloc (Z.to_nat c)).

(** [for j := range m.blocks[s][i] { m.blocks[s][i][j] = 0 }], the
    iterations from [j] on, [k] of them. *)
Fixpoint zero_loop (s : Z) (i : nat) (k j : nat) : prog unit :=
  match k with
  | O => Done tt
  | S k' =>
      b <~ block_at s i ;;
      store b j Byte.x00 ;;;
      zero_loop s i k' (S j)
  end.

Definition zero_block (s : Z) (i : nat) : prog unit :=
  b <~ block_at s i ;; zero_loop s i (sl_len b) 0.

(** [for i := range m.blocks[s] { if !m.used[&m.blocks[s][i][0]] { ...
    return m.blocks[s][i] } }], the iterations from [i] on, [k] of them.
    [Some b] is the early return, [None] the fall through. *)
Fixpoint scan (s : Z) (k i : nat) : prog (option slice) :=
  match k with
  | O => Done None
  | S k' =>
      b <~ block_at s i ;;
      p <~ addr0 b ;;
      u <~ used_get p ;;
      if negb u then
        b1 <~ block_at s i ;;
        p1 <~ addr0 b1 ;;
        act (UsedStore p1 true) ;;;
        zero_block s i ;;;
        b2 <~ block_at s i ;;
        Done (Some b2)
      else scan s k' (S i)
  end.

(** The body of [GetBlock] once the class is known. *)
Definition get_in_class (n c s : Z) : prog slice :=
  l <~ blocks_at s ;;
  r <~ scan s (length l) 0 ;;
  match r with
  | Some b => Done b
  | None =>
      new_block <~ make c ;;
      l' <~ blocks_at s ;;
      act (StoreBlocks (Z.to_nat s) (l' ++ [new_block])) ;;;
      p <~ addr0 new_block ;;
      act (UsedStore p true) ;;;
      reslice0 new_block n
  end.

Definition GetBlock_body (n : Z) : prog slice :=
  match find_class n with
  | None => Spin
  | Some (c, s) => get_in_class n c s
  end.

(** [func (m *Manager) GetBlock(n int) []byte] *)
Definition GetBlock (n : Z) : prog slice := with_lock (GetBlock_body n).

Definition FreeBlock_body (b : slice) : prog unit :=
  p <~ addr0 b ;;
  o <~ act (UsedLoad p) ;;
  match o with
  | None => Throw (PanicString "Tried to free an unused block")
  | Some _ =>
      p' <~ addr0 b ;;
      act (UsedDelete p')
  end.

(** [func (m *Manager) FreeBlock(b []byte)] *)
Definition FreeBlock (b : slice) : prog unit := with_lock (FreeBlock_body b).

(** [func NewManager() *Manager].  The package functions [GetBlock],
    [FreeBlock] and [TotalAllocations] are these methods on one manager
    the package makes in [init]. *)
Definition NewManager : Manager :=
  mkManager false (replicate numClasses []) ∅.

Definition NewWorld : world := mkWorld [] NewManager.

(** [if m.used[&m.blocks[s][i][0]] { used++ }] for [i] from the given one
    on, [k] iterations. *)
Fixpoint count_used (s : Z) (k i : nat) (cnt : Z) : prog Z :=
  match k with
  | O => Done cnt
  | S k' =>
      b <~ block_at s i ;;
      p <~ addr0 b ;;
      u <~ used_get p ;;
      count_used s k' (S i) (if u then wrap (cnt + 1) else cnt)
  end.

(** The local variables of [TotalAllocations]. *)
Record report_vars : Type := mkVars {
  rv_c : Z;
  rv_ret : string;
  rv_total_used : Z;
  rv_total_allocated : Z
}.

Definition newline : string := String (Ascii.ascii_of_nat 10) EmptyString.

(** [fmt.Sprintf("%d bytes: %d/%d blocks in use.\n", c, used, len)] *)
Definition class_line (c cnt len : Z) : string :=
  pretty c +:+ " bytes: " +:+ pretty cnt +:+ "/" +:+ pretty len
    +:+ " blocks in use." +:+ newline.

(** [fmt.Sprintf("Total memory used/allocated: %d/%d\n", u, a)] *)
Definition total_line (u a : Z) : string :=
  "Total memory used/allocated: " +:+ pretty u +:+ "/" +:+ pretty a +:+ newline.

(** One iteration of [for s := range m.blocks]. *)
Definition report_class (s : Z) (v : report_vars) : prog report_vars :=
  l <~ blocks_at s ;;
  cnt <~ count_used s (length l) 0 0 ;;
  ret' <~ (if 0 <? cnt then
             l1 <~ blocks_at s ;;
             Done (rv_ret v +:+ class_line (rv_c v) cnt (Z.of_nat (length l1)))
           else Done (rv_ret v)) ;;
  l2 <~ blocks_at s ;;
  Done (mkVars (wrap (rv_c v * 2)) ret'
          (wrap (rv_total_used v + wrap (cnt * rv_c v)))
          (wrap (rv_total_allocated v + wrap (Z.of_nat (length l2) * rv_c v)))).

Fixpoint report_loop (k s : nat) (v : report_vars) : prog report_vars :=
  match k with
  | O => Done v
  | S k' => v' <~ report_class (Z.of_nat s) v ;; report_loop k' (S s) v'
  end.

(** [func (m *Manager) TotalAllocations() string]: the mutex is not taken. *)
Definition TotalAllocations : prog string :=
  bs <~ act LoadBlocks ;;
  v <~ report_loop (length bs) 0 (mkVars smallestBlockSize "" 0 0) ;;
  Done (rv_ret v +:+ total_line (rv_total_used v) (rv_total_allocated v)).

(** ** Callers *)

(** What a goroutine can do with a manager and the views it holds. *)
Inductive call : Type :=
| CallGetBlock (n : Z)
| CallFreeBlock (b : slice)
| CallTotalAllocations
| CallWrite (b : slice) (j : nat) (v : Byte.byte).

(** What a call gives back. *)
Inductive result : Type :=
| RView (b : slice)
| RText (t : string)
| RUnit.

Definition call_prog (c : call) : prog result :=
  match c with
  | CallGetBlock n => b <~ GetBlock n ;; Done (RView b)
  | CallFreeBlock b => FreeBlock b ;;; Done RUnit
  | CallTotalAllocations => t <~ TotalAllocations ;; Done (RText t)
  | CallWrite b j v => store b j v ;;; Done RUnit
  end.

(** A slice value a Go program can hold: inside its array. *)
Definition valid_slice (w : world) (b : slice) : Prop :=
  (sl_len b <= sl_cap b)%nat /\
  match sl_arr b with
  | Pool k => exists a, heap w !! k = Some a /\ (sl_off b + sl_cap b <= length a)%nat
  | Foreign _ => True
  end.

Definition valid_call (w : world) (c : call) : Prop :=
  match c with
  | CallGetBlock _ | CallTotalAllocations => True
  | CallFreeBlock b | CallWrite b _ _ => valid_slice w b
  end.

(** The worlds one goroutine can bring about from a new manager; a panic
    may be recovered by the caller, a call that never returns ends the
    sequence. *)
Inductive reachable : world -> Prop :=
| reachable_new : reachable NewWorld
| reachable_ret w c r w' :
    reachable w -> valid_call w c -> run (call_prog c) w = Ret r w' -> reachable w'
| reachable_panic w c e w' :
    reachable w -> valid_call w c -> run (call_prog c) w = Panicked e w' -> reachable w'.

(** The bytes a view shows. *)
Definition view_bytes (w : world) (b : slice) : list Byte.byte :=
  match sl_arr b with
  | Pool k => take (sl_len b) (drop (sl_off b) (default [] (heap w !! k)))
  | Foreign _ => []
  end.

(** The size of class [s]. *)
Definition class_size (s : nat) : Z := smallestBlockSize * 2 ^ Z.of_nat s.

(** Sum over the classes of class size times block count. *)
Fixpoint allocated_from (s : nat) (bs : list (list slice)) : Z :=
  match bs with
  | [] => 0
  | l :: bs' => class_size s * Z.of_nat (length l) + allocated_from (S s) bs'
  end.

Definition total_allocated (w : world) : Z := allocated_from 0 (blocks (mgr w)).

(** ** Sequences of calls *)

(** The world after a sequence of calls, each started in the world the
    one before left: at its return, at its panic (recovered by the
    caller), or where it stopped for ever. *)
Definition after (cs : list call) (w : world) : world :=
  fold_left (fun w c => final_world (run (call_prog c) w)) cs w.

Definition view2000 : slice := mkSlice (Pool 0) 0 2000 2048.

(** ** Outcomes and updates of a world *)

Definition set_mutex (b : bool) (w : world) : world :=
  set_mgr w (mkManager b (blocks (mgr w)) (used (mgr w))).

Definition then_do {A B : Type} (o : outcome A) (f : A -> world -> outcome B) : outcome B :=
  match o with
  | Ret a w => f a w
  | Panicked e w => Panicked e w
  | Diverge w => Diverge w
  end.

(** ** The effect of [GetBlock] and [FreeBlock] on a world *)

Definition is_used (u : gmap ptr bool) (b : slice) : bool :=
  default false (u !! (sl_arr b, sl_off b)).

(** The first block of a class that is not checked out. *)
Fixpoint first_free (u : gmap ptr bool) (l : list slice) : option slice :=
  match l with
  | [] => None
  | b :: l' => if is_used u b then first_free u l' else Some b
  end.

Definition set_used (u : gmap ptr bool) (w : world) : world :=
  set_mgr w (mkManager (mutex (mgr w)) (blocks (mgr w)) u).

(** Bytes [j], ..., [j + k - 1] of a slice set to zero, in this order. *)
Fixpoint zero_heap (b : slice) (k j : nat) (h : list (list Byte.byte)) :
  list (list Byte.byte) :=
  match k with
  | O => h
  | S k' => zero_heap b k' (S j) (poke (sl_arr b, (sl_off b + j)%nat) Byte.x00 h)
  end.

(** Reuse of a free block: marked, then cleared. *)
Definition reuse (b : slice) (w : world) : world :=
  set_heap (set_used (<[(sl_arr b, sl_off b) := true]> (used (mgr w))) w)
           (zero_heap b (sl_len b) 0 (heap w)).

(** The slice [make([]byte, c)] returns in a world. *)
Definition fresh_block (c : nat) (w : world) : slice :=
  mkSlice (Pool (length (heap w))) 0 c c.

(** A new block of [c] bytes: allocated, appended to class [k], marked. *)
Definition grow (k c : nat) (l : list slice) (w : world) : world :=
  mkWorld (heap w ++ [replicate c Byte.x00])
          (mkManager (mutex (mgr w))
                     (<[k := l ++ [fresh_block c w]]> (blocks (mgr w)))
                     (<[(Pool (length (heap w)), 0%nat) := true]> (used (mgr w)))).

Definition nonempty (b : slice) : Prop := sl_len b <> 0%nat.

(** The outcome of [return new_block[0:n]]. *)
Definition sliced (n : Z) (c : nat) (w w' : world) : outcome slice :=
  if (n <? 0) || (Z.of_nat c <? n) then Panicked (SliceBoundsOutOfRange n c) w'
  else Ret (mkSlice (Pool (length (heap w))) 0 (Z.to_nat n) c) w'.

(** What [GetBlock] does between [Lock] and [Unlock], the class known and
    inside the class table, as a function of the world: the run of the
    code is proved equal to it in [run_get_in_class]. *)
Definition get_in_class_outcome (n : Z) (c k : nat) (l : list slice) (w : world) :
  outcome slice :=
  match first_free (used (mgr w)) l with
  | Some b => Ret b (reuse b w)
  | None => sliced n c w (grow k c l w)
  end.

(** What [FreeBlock] does, as a function of the world it is called in:
    the run of the code is proved equal to it in [run_FreeBlock]. *)
Definition FreeBlock_outcome (b : slice) (w : world) : outcome unit :=
  if (sl_len b =? 0)%nat then Panicked (IndexOutOfRange 0 0) w
  else match used (mgr w) !! (sl_arr b, sl_off b) with
       | None => Panicked (PanicString "Tried to free an unused block") w
       | Some _ => Ret tt (set_used (delete (sl_arr b, sl_off b) (used (mgr w))) w)
       end.

(** ** Programs that only read *)

Definition is_read {X : Type} (e : prim X) : bool :=
  match e with
  | LoadBlocks | UsedLoad _ => true
  | _ => false
  end.

(** A program that ends, and whose actions are loads of [m.blocks] and
    [m.used]. *)
Fixpoint read_only {A : Type} (p : prog A) : Prop :=
  match p with
  | Done _ | Throw _ => True
  | Spin => False
  | Act e k => is_read e = true /\ forall x, read_only (k x)
  end.

(** ** The invariant of the manager *)

(** A block of class [s]: a whole array of the manager, of the class size. *)
Definition block_ok (h : list (list Byte.byte)) (s : nat) (b : slice) : Prop :=
  exists k, sl_arr b = Pool k /\ sl_off b = 0%nat /\
            sl_len b = Z.to_nat (class_size s) /\
            sl_cap b = Z.to_nat (class_size s) /\
            (length <$> h) !! k = Some (Z.to_nat (class_size s)).

Record wf (w : world) : Prop := mk_wf {
  wf_classes : length (blocks (mgr w)) = numClasses;
  wf_block : forall s l b,
    blocks (mgr w) !! s = Some l -> b ∈ l -> block_ok (heap w) s b;
  wf_used : forall p v,
    used (mgr w) !! p = Some v ->
    v = true /\ exists s l b,
      blocks (mgr w) !! s = Some l /\ b ∈ l /\ p = (sl_arr b, sl_off b)
}.

(** What [GetBlock] does, for every request, as a function of the world
    it is called in: the run of the code is proved equal to it in
    [run_GetBlock_outcome]. *)
Definition GetBlock_outcome (n : Z) (w : world) : outcome slice :=
  match find_class n with
  | None => Diverge (set_mutex true w)
  | Some (c, s) =>
      match blocks (mgr w) !! Z.to_nat s with
      | Some l => get_in_class_outcome n (Z.to_nat c) (Z.to_nat s) l w
      | None => Panicked (IndexOutOfRange s (length (blocks (mgr w)))) w
      end
  end.

(** ** The worlds of the examples *)

Definition view1000 : slice := mkSlice (Pool 0) 0 1000 1024.

Definition w_taken : world := after [CallGetBlock 1000] NewWorld.

Definition w_scribbled : world :=
  after [CallGetBlock 1000; CallWrite view1000 7 Byte.xff] NewWorld.

Definition w_freed : world :=
  after [CallGetBlock 1000; CallWrite view1000 7 Byte.xff; CallFreeBlock view1000] NewWorld.

Definition w_freed2000 : world :=
  after [CallGetBlock 2000; CallFreeBlock view2000] NewWorld.

Definition w_freed1000 : world :=
  after [CallGetBlock 1000; CallFreeBlock view1000] NewWorld.

(** ** What [FreeBlock] does *)

(** The panic of a [FreeBlock] that finds no checked-out block: the index
    panic of [&b[0]] on an empty view, the explicit panic otherwise. *)
Definition free_panic (b : slice) : panic :=
  if (sl_len b =? 0)%nat then IndexOutOfRange 0 0
  else PanicString "Tried to free an unused block".

(** ** Interleaving semantics *)

(** The primitive actions as they show in a history. *)
Inductive action : Type :=
| ALock
| AUnlock
| ALoadBlocks
| AStoreBlocks (s : nat) (l : list slice)
| AUsedLoad (p : ptr)
| AUsedStore (p : ptr) (v : bool)
| AUsedDelete (p : ptr)
| AAlloc (c : nat)
| APoke (p : ptr) (v : Byte.byte).

Definition action_of {X : Type} (e : prim X) : action :=
  match e with
  | Lock => ALock
  | Unlock => AUnlock
  | LoadBlocks => ALoadBlocks
  | StoreBlocks s l => AStoreBlocks s l
  | UsedLoad p => AUsedLoad p
  | UsedStore p v => AUsedStore p v
  | UsedDelete p => AUsedDelete p
  | Alloc c => AAlloc c
  | Poke p v => APoke p v
  end.

Inductive event : Type :=
| EvCall (t : nat) (c : call)
| EvAct (t : nat) (a : action)
| EvReturn (t : nat) (c : call) (r : result)
| EvPanic (t : nat) (c : call) (e : panic).

(** A goroutine is between two calls, or inside one with a program left
    to run. *)
Inductive tstate : Type :=
| Idle
| Running (c : call) (p : prog result).

Record config : Type := mkConfig {
  cw : world;
  threads : list tstate
}.

Definition init (n : nat) : config := mkConfig NewWorld (replicate n Idle).

(** One step of goroutine [t] inside call [c]: its next primitive action
    if that is enabled, or its return, or its panic (which the caller
    recovers).  A goroutine that waits for the mutex, or spins, has no
    step. *)
Definition step_thread (t : nat) (c : call) (p : prog result) (cfg : config) :
  option (event * config) :=
  match p with
  | Done r => Some (EvReturn t c r, mkConfig (cw cfg) (<[t := Idle]> (threads cfg)))
  | Throw e => Some (EvPanic t c e, mkConfig (cw cfg) (<[t := Idle]> (threads cfg)))
  | Spin => None
  | Act e k =>
      if enabled e (cw cfg) then
        Some (EvAct t (action_of e),
              mkConfig (prim_sem e (cw cfg)).2
                       (<[t := Running c (k (prim_sem e (cw cfg)).1)]> (threads cfg)))
      else None
  end.

(** What the scheduler picks: a goroutine to start a call, or one to go on. *)
Inductive choice : Type :=
| Start (t : nat) (c : call)
| Go (t : nat).

Definition step_fn (cfg : config) (ch : choice) : option (event * config) :=
  match ch with
  | Start t c =>
      match threads cfg !! t with
      | Some Idle =>
          Some (EvCall t c,
                mkConfig (cw cfg) (<[t := Running c (call_prog c)]> (threads cfg)))
      | _ => None
      end
  | Go t =>
      match threads cfg !! t with
      | Some (Running c p) => step_thread t c p cfg
      | _ => None
      end
  end.

(** Executions from a configuration, with their history, newest event
    first. *)
Inductive exec (c0 : config) : list event -> config -> Prop :=
| exec_nil : exec c0 [] c0
| exec_step h cfg ch ev cfg' :
    exec c0 h cfg -> step_fn cfg ch = Some (ev, cfg') -> exec c0 (ev :: h) cfg'.

(** The execution a schedule picks, while its choices can be taken. *)
Fixpoint schedule (chs : list choice) (h : list event) (cfg : config) :
  option (list event * config) :=
  match chs with
  | [] => Some (h, cfg)
  | ch :: chs' =>
      match step_fn cfg ch with
      | Some (ev, cfg') => schedule chs' (ev :: h) cfg'
      | None => None
      end
  end.

(** ** What a history says *)

(** Whether goroutine [t] holds the mutex: its last [Lock] or [Unlock]. *)
Fixpoint holds (t : nat) (h : list event) : bool :=
  match h with
  | [] => false
  | EvAct t' ALock :: h' => if decide (t' = t) then true else holds t h'
  | EvAct t' AUnlock :: h' => if decide (t' = t) then false else holds t h'
  | _ :: h' => holds t h'
  end.

(** Whether the key [p] is in the checked-out set: the last [m.used[p] =
    v] or [delete(m.used, p)]. *)
Fixpoint marked (p : ptr) (h : list event) : bool :=
  match h with
  | [] => false
  | EvAct _ (AUsedStore q _) :: h' => if decide (q = p) then true else marked p h'
  | EvAct _ (AUsedDelete q) :: h' => if decide (q = p) then false else marked p h'
  | _ :: h' => marked p h'
  end.

(** The keys goroutine [t] has marked since it started its current call. *)
Fixpoint marks_in_call (t : nat) (h : list event) : list ptr :=
  match h with
  | [] => []
  | EvCall t' _ :: h' => if decide (t' = t) then [] else marks_in_call t h'
  | EvAct t' (AUsedStore p _) :: h' =>
      if decide (t' = t) then p :: marks_in_call t h' else marks_in_call t h'
  | _ :: h' => marks_in_call t h'
  end.

Definition two_calls : list choice :=
  [Start 0 (CallGetBlock 2000); Go 0; Go 0; Start 1 (CallGetBlock 1500);
   Go 0; Go 0; Go 0; Go 0; Go 0; Go 0;
   Go 1; Go 1; Go 1; Go 1; Go 1; Go 1; Go 1; Go 1; Go 1; Go 1].

(** ** Programs under the mutex *)

Definition is_lock {X : Type} (e : prim X) : bool :=
  match e with Lock => true | _ => false end.

Definition is_unlock {X : Type} (e : prim X) : bool :=
  match e with Unlock => true | _ => false end.

(** Actions that leave the manager and the sizes of the arrays alone. *)
Definition harmless {X : Type} (e : prim X) : bool :=
  match e with
  | LoadBlocks | UsedLoad _ | Poke _ _ => true
  | _ => false
  end.

(** What an action inside a critical section needs: a key is marked only
    when it is not in the checked-out set; the mutex is not touched. *)
Definition pre {X : Type} (e : prim X) (w : world) : Prop :=
  match e with
  | Lock | Unlock => False
  | UsedStore p v => used (mgr w) !! p = None /\ v = true
  | _ => True
  end.

(** The keys marked so far, after one more action. *)
Definition note {X : Type} (e : prim X) (g : list ptr) : list ptr :=
  match e with
  | UsedStore p _ => p :: g
  | _ => g
  end.

(** [wp p w g Q E]: run from [w] with [g] marked so far, [p] meets [pre]
    at every action, ends in [Q] when it returns and in [E] when it
    panics. *)
Fixpoint wp {A : Type} (p : prog A) (w : world) (g : list ptr)
    (Q : A -> world -> list ptr -> Prop) (E : world -> list ptr -> Prop) : Prop :=
  match p with
  | Done a => Q a w g
  | Throw _ => E w g
  | Spin => True
  | Act e k => pre e w /\ wp (k (prim_sem e w).1) (prim_sem e w).2 (note e g) Q E
  end.

(** A view handed out was marked during the call. *)
Definition post (g : list ptr) (r : result) : Prop :=
  match r with
  | RView v => (sl_arr v, sl_off v) ∈ g
  | _ => True
  end.

(** A goroutine outside the critical section, with no [Lock] ahead. *)
Fixpoint calm (g : list ptr) (p : prog result) : Prop :=
  match p with
  | Done r => post g r
  | Throw _ | Spin => True
  | Act e k => harmless e = true /\ forall x, calm g (k x)
  end.

(** A goroutine inside the critical section. *)
Fixpoint crit (p : prog result) (w : world) (g : list ptr) : Prop :=
  match p with
  | Done _ | Throw _ => False
  | Spin => True
  | Act e k =>
      if is_unlock e then wf (prim_sem e w).2 /\ calm g (k (prim_sem e w).1)
      else pre e w /\ crit (k (prim_sem e w).1) (prim_sem e w).2 (note e g)
  end.

(** A goroutine outside the critical section. *)
Definition quiet (g : list ptr) (p : prog result) : Prop :=
  match p with
  | Act e k =>
      if is_lock e then
        g = [] /\
        forall w, wf w -> mutex (mgr w) = false ->
                  crit (k (prim_sem e w).1) (prim_sem e w).2 []
      else calm g p
  | _ => calm g p
  end.

(** Actions that mark nothing and leave the mutex alone. *)
Definition unmarking {X : Type} (e : prim X) : bool :=
  match e with
  | Lock | Unlock | UsedStore _ _ => false
  | _ => true
  end.

Fixpoint markless {A : Type} (p : prog A) : Prop :=
  match p with
  | Act e k => unmarking e = true /\ forall x, markless (k x)
  | _ => True
  end.

(** ** Worlds that differ in bytes only *)

Definition same_shape (w1 w2 : world) : Prop :=
  mgr w1 = mgr w2 /\ length <$> heap w1 = length <$> heap w2.

(** ** The invariant of an execution *)

Record inv (h : list event) (cfg : config) : Prop := mk_inv {
  inv_wf : mutex (mgr (cw cfg)) = false -> wf (cw cfg);
  inv_mutex : forall t, holds t h = true -> mutex (mgr (cw cfg)) = true;
  inv_one : forall t t', holds t h = true -> holds t' h = true -> t = t';
  inv_idle : forall t, threads cfg !! t = Some Idle -> holds t h = false;
  inv_run : forall t c p,
    threads cfg !! t = Some (Running c p) ->
    if holds t h then crit p (cw cfg) (marks_in_call t h)
    else quiet (marks_in_call t h) p;
  inv_marked : forall p, marked p h = true <-> is_Some (used (mgr (cw cfg)) !! p)
}.

(** ** A schedule for the report *)

(** Goroutine 0 is inside [GetBlock(2000)]: it has locked the mutex,
    allocated the block and appended it to its class, and has not yet
    marked it.  Goroutine 1 then runs [TotalAllocations] from its call to
    its return. *)
Definition report_race : list choice :=
  [Start 0 (CallGetBlock 2000); Go 0; Go 0; Go 0; Go 0; Go 0;
   Start 1 CallTotalAllocations] ++ replicate 46 (Go 1).

(** ** The state and the report, described *)

(** No array backs two blocks. *)
Definition distinct_blocks (w : world) : Prop :=
  forall s1 l1 i1 b1 s2 l2 i2 b2,
    blocks (mgr w) !! s1 = Some l1 -> l1 !! i1 = Some b1 ->
    blocks (mgr w) !! s2 = Some l2 -> l2 !! i2 = Some b2 ->
    sl_arr b1 = sl_arr b2 -> s1 = s2 /\ i1 = i2.

(** The blocks of a class whose first byte is checked out, counted. *)
Fixpoint used_count (u : gmap ptr bool) (l : list slice) : Z :=
  match l with
  | [] => 0
  | b :: l' => (if is_used u b then 1 else 0) + used_count u l'
  end.

(** The line of class [s]: none when no block of the class is in use. *)
Definition class_report (u : gmap ptr bool) (s : nat) (l : list slice) : string :=
  if 0 <? used_count u l then
    class_line (class_size s) (used_count u l) (Z.of_nat (length l))
  else "".

Fixpoint classes_report (u : gmap ptr bool) (s : nat) (ls : list (list slice)) : string :=
  match ls with
  | [] => ""
  | l :: ls' => class_report u s l +:+ classes_report u (S s) ls'
  end.

(** Sum over the classes of class size times blocks in use. *)
Fixpoint used_from (u : gmap ptr bool) (s : nat) (ls : list (list slice)) : Z :=
  match ls with
  | [] => 0
  | l :: ls' => class_size s * used_count u l + used_from u (S s) ls'
  end.

Definition total_used (w : world) : Z := used_from (used (mgr w)) 0 (blocks (mgr w)).

(** The report of a world: the lines of the classes in use, in class
    order, then the line of the totals. *)
Definition report_text (w : world) : string :=
  classes_report (used (mgr w)) 0 (blocks (mgr w))
    +:+ total_line (total_used w) (total_allocated w).

(** ** Classes of actions *)

(** The actions that change the manager or allocate for it. *)
Definition updates (a : action) : bool :=
  match a with
  | AStoreBlocks _ _ | AUsedStore _ _ | AUsedDelete _ | AAlloc _ => true
  | _ => false
  end.

(** * Properties *)

(** ** Scenarios *)

Example scenario_get :
  run (GetBlock 2000) NewWorld
  = Ret view2000 (after [CallGetBlock 2000] NewWorld).
Proof. vm_compute. reflexivity. Qed.

Example scenario_report :
  run TotalAllocations (after [CallGetBlock 2000] NewWorld)
  = Ret ("2048 bytes: 1/1 blocks in use." +:+ newline
           +:+ "Total memory used/allocated: 2048/2048" +:+ newline)
        (after [CallGetBlock 2000] NewWorld).
Proof. vm_compute. reflexivity. Qed.

Example scenario_reuse :
  run (GetBlock 2000) (after [CallGetBlock 2000; CallFreeBlock view2000] NewWorld)
  = Ret (mkSlice (Pool 0) 0 2048 2048)
        (after [CallGetBlock 2000; CallFreeBlock view2000; CallGetBlock 2000] NewWorld).
Proof. vm_compute. reflexivity. Qed.

(** ** The class search *)

Lemma wrap_small (z : Z) : - 2 ^ 63 <= z < 2 ^ 63 -> wrap z = z.
Proof.
  intros H. unfold wrap, int_min, int_bits. change (64 - 1) with 63.
  rewrite Z.mod_small; lia.
Qed.

Lemma class_size_pos (s : nat) : 0 < class_size s.
Proof. unfold class_size, smallestBlockSize. pose proof (Z.pow_pos_nonneg 2 (Z.of_nat s)). lia. Qed.

Lemma class_size_S (s : nat) : class_size (S s) = class_size s * 2.
Proof.
  unfold class_size. rewrite Nat2Z.inj_succ, Z.pow_succ_r by lia. lia.
Qed.

Lemma class_size_mono (s t : nat) : (s <= t)%nat -> class_size s <= class_size t.
Proof.
  intros H. unfold class_size, smallestBlockSize.
  apply Z.mul_le_mono_nonneg_l; [lia|].
  apply Z.pow_le_mono_r; lia.
Qed.

Lemma class_size_52 : class_size 52 = 2 ^ 62.
Proof. reflexivity. Qed.

Lemma class_size_20 : class_size 20 = 2 ^ 30.
Proof. reflexivity. Qed.

(** Once [c] has wrapped to zero the loop cannot leave. *)
Lemma class_loop_zero (fuel : nat) (n s : Z) :
  0 < n -> class_loop fuel n 0 s = None.
Proof.
  intros Hn. revert s. induction fuel as [|fuel IH]; intros s; simpl; [done|].
  destruct (Z.ltb_spec 0 n); [|lia].
  change (wrap (0 * 2)) with 0. apply IH.
Qed.

(** From [c = 2^62] a larger request wraps [c] to [-2^63], then to [0]. *)
Lemma class_loop_wrapped (fuel : nat) (n s : Z) :
  2 ^ 62 < n -> class_loop fuel n (wrap (2 ^ 62 * 2)) s = None.
Proof.
  intros Hn. change (wrap (2 ^ 62 * 2)) with (- 2 ^ 63).
  destruct fuel as [|fuel]; simpl; [done|].
  destruct (Z.ltb_spec (- 2 ^ 63) n); [|lia].
  change (wrap (- 2 ^ 63 * 2)) with 0.
  apply class_loop_zero. lia.
Qed.

Lemma class_loop_inv (fuel : nat) (n : Z) (j : nat) (c s : Z) :
  (j <= 52)%nat ->
  (forall j', (j' < j)%nat -> class_size j' < n) ->
  class_loop fuel n (class_size j) (Z.of_nat j) = Some (c, s) ->
  exists k, (j <= k <= 52)%nat /\ c = class_size k /\ s = Z.of_nat k /\
            n <= c /\ forall j', (j' < k)%nat -> class_size j' < n.
Proof.
  revert j. induction fuel as [|fuel IH]; intros j Hj Hlt; simpl; [done|].
  destruct (Z.ltb_spec (class_size j) n) as [Hc|Hc].
  - destruct (decide (j = 52%nat)) as [->|Hne].
    + rewrite class_size_52 in *. rewrite class_loop_wrapped; done.
    + assert (class_size (S j) <= class_size 52) by (apply class_size_mono; lia).
      rewrite class_size_52 in *.
      rewrite <- class_size_S.
      rewrite (wrap_small (class_size (S j))) by (pose proof (class_size_pos (S j)); lia).
      rewrite (wrap_small (Z.of_nat j + 1)) by lia.
      replace (Z.of_nat j + 1) with (Z.of_nat (S j)) by lia.
      intros Hr. apply IH in Hr as (k & ? & ? & ? & ? & ?); [|lia|].
      * exists k. repeat split; try done; lia.
      * intros j' Hj'. destruct (decide (j' = j)) as [->|]; [done|]. apply Hlt. lia.
  - intros [= <- <-]. exists j. repeat split; try done; lia.
Qed.

Lemma class_loop_enough (fuel : nat) (n : Z) (j : nat) :
  n <= 2 ^ 62 -> (j <= 52)%nat -> (53 - j <= fuel)%nat ->
  is_Some (class_loop fuel n (class_size j) (Z.of_nat j)).
Proof.
  intros Hn. revert j. induction fuel as [|fuel IH]; intros j Hj Hf; [lia|].
  simpl. destruct (Z.ltb_spec (class_size j) n) as [Hc|Hc]; [|done].
  assert (j <> 52%nat) by (intros ->; rewrite class_size_52 in Hc; lia).
  assert (class_size (S j) <= class_size 52) by (apply class_size_mono; lia).
  rewrite class_size_52 in *.
  rewrite <- class_size_S.
  rewrite (wrap_small (class_size (S j))) by (pose proof (class_size_pos (S j)); lia).
  rewrite (wrap_small (Z.of_nat j + 1)) by lia.
  replace (Z.of_nat j + 1) with (Z.of_nat (S j)) by lia.
  apply IH; lia.
Qed.

Lemma class_loop_more_fuel (fuel extra : nat) (n c s : Z) (r : Z * Z) :
  class_loop fuel n c s = Some r -> class_loop (fuel + extra) n c s = Some r.
Proof.
  revert c s. induction fuel as [|fuel IH]; intros c s; simpl; [done|].
  destruct (c <? n); [apply IH|done].
Qed.

(** What the search finds: the least class that holds [n]. *)
Lemma find_class_Some (n c s : Z) :
  find_class n = Some (c, s) ->
  exists k, (k <= 52)%nat /\ c = class_size k /\ s = Z.of_nat k /\
            n <= c /\ forall j', (j' < k)%nat -> class_size j' < n.
Proof.
  intros H. apply (class_loop_inv 64 n 0) in H as (k & ? & ? & ? & ? & ?).
  - exists k. repeat split; try done; lia.
  - lia.
  - intros; lia.
Qed.

Lemma find_class_is_Some (n : Z) : n <= 2 ^ 62 -> is_Some (find_class n).
Proof. intros H. apply (class_loop_enough 64 n 0); [done|lia|lia]. Qed.

Lemma find_class_None (n : Z) : find_class n = None <-> 2 ^ 62 < n.
Proof.
  split.
  - intros H. destruct (Z.lt_ge_cases (2 ^ 62) n) as [|Hle]; [done|].
    apply find_class_is_Some in Hle as [r Hr]. congruence.
  - intros H. destruct (find_class n) as [[c s]|] eqn:E; [|done].
    apply find_class_Some in E as (k & Hk & -> & _ & Hn & _).
    assert (class_size k <= class_size 52) by (apply class_size_mono; lia).
    rewrite class_size_52 in *. lia.
Qed.

(** The bound of [find_class] loses nothing: a search it does not decide
    is a loop that no number of iterations ends. *)
Lemma find_class_None_forever (n : Z) :
  find_class n = None ->
  forall fuel, class_loop fuel n smallestBlockSize 0 = None.
Proof.
  intros H%find_class_None fuel.
  destruct (class_loop fuel n smallestBlockSize 0) as [[c s]|] eqn:E; [|done].
  apply (class_loop_inv fuel n 0) in E as (k & Hk & -> & _ & Hn & _); [|lia|intros; lia].
  assert (class_size k <= class_size 52) by (apply class_size_mono; lia).
  rewrite class_size_52 in *. lia.
Qed.

(** A search it decides is the loop's result with any larger bound. *)
Lemma find_class_Some_forever (n : Z) (r : Z * Z) :
  find_class n = Some r ->
  forall fuel, (64 <= fuel)%nat -> class_loop fuel n smallestBlockSize 0 = Some r.
Proof.
  intros H fuel Hf. replace fuel with (64 + (fuel - 64))%nat by lia.
  by apply class_loop_more_fuel.
Qed.

(** In range, the class index is inside the class table. *)
Lemma find_class_in_range (n : Z) :
  n <= 2 ^ 30 ->
  exists k, (k < numClasses)%nat /\ find_class n = Some (class_size k, Z.of_nat k) /\
            n <= class_size k /\ forall j', (j' < k)%nat -> class_size j' < n.
Proof.
  intros Hn. destruct (find_class_is_Some n) as [[c s] E]; [lia|].
  destruct (find_class_Some _ _ _ E) as (k & Hk & -> & -> & Hle & Hlt).
  exists k. repeat split; try done.
  destruct (decide (k < numClasses)%nat) as [|Hge]; [done|].
  specialize (Hlt 20%nat). rewrite class_size_20 in Hlt. unfold numClasses in Hge. lia.
Qed.

(** ** Running programs *)

Lemma run_bind {A B : Type} (m : prog A) (f : A -> prog B) (w : world) :
  run (bind m f) w = then_do (run m w) (fun a w' => run (f a) w').
Proof.
  revert w. induction m as [a|e| |X e k IH]; intros w; simpl; try done.
  destruct (enabled e w); [apply IH|done].
Qed.

Lemma run_act {X : Type} (e : prim X) (w : world) :
  enabled e w = true -> run (act e) w = Ret (prim_sem e w).1 (prim_sem e w).2.
Proof. intros H. unfold act. simpl. by rewrite H. Qed.

Lemma run_defer_unlock {A : Type} (body : prog A) (w : world) :
  run (defer (act Unlock) body) w =
  match run body w with
  | Ret a w' => Ret a (set_mutex false w')
  | Panicked e w' => Panicked e (set_mutex false w')
  | Diverge w' => Diverge w'
  end.
Proof.
  revert w. induction body as [a|e| |X e k IH]; intros w; simpl; try done.
  destruct (enabled e w); [apply IH|done].
Qed.

Lemma run_with_lock {A : Type} (body : prog A) (w : world) :
  run (with_lock body) w =
  if mutex (mgr w) then Diverge w
  else match run body (set_mutex true w) with
       | Ret a w' => Ret a (set_mutex false w')
       | Panicked e w' => Panicked e (set_mutex false w')
       | Diverge w' => Diverge w'
       end.
Proof.
  unfold with_lock. simpl. destruct (mutex (mgr w)); simpl; [done|].
  apply run_defer_unlock.
Qed.

Lemma run_index_Some {A : Type} (l : list A) (i : nat) (x : A) (w : world) :
  l !! i = Some x -> run (index l (Z.of_nat i)) w = Ret x w.
Proof.
  intros H. unfold index. pose proof (lookup_lt_Some _ _ _ H).
  destruct (Z.ltb_spec (Z.of_nat i) 0); [lia|].
  destruct (Z.leb_spec (Z.of_nat (length l)) (Z.of_nat i)); [lia|].
  simpl. by rewrite Nat2Z.id, H.
Qed.

Lemma run_index_None {A : Type} (l : list A) (i : Z) (w : world) :
  i < 0 \/ Z.of_nat (length l) <= i ->
  run (index l i) w = Panicked (IndexOutOfRange i (length l)) w.
Proof.
  intros H. unfold index.
  destruct (Z.ltb_spec i 0); [done|].
  destruct (Z.leb_spec (Z.of_nat (length l)) i); [done|lia].
Qed.

Lemma run_blocks_at_Some (k : nat) (l : list slice) (w : world) :
  blocks (mgr w) !! k = Some l -> run (blocks_at (Z.of_nat k)) w = Ret l w.
Proof.
  intros H. unfold blocks_at. rewrite run_bind, run_act by done. simpl.
  by apply run_index_Some.
Qed.

Lemma run_blocks_at_None (s : Z) (w : world) :
  s < 0 \/ Z.of_nat (length (blocks (mgr w))) <= s ->
  run (blocks_at s) w = Panicked (IndexOutOfRange s (length (blocks (mgr w)))) w.
Proof.
  intros H. unfold blocks_at. rewrite run_bind, run_act by done. simpl.
  by apply run_index_None.
Qed.

Lemma run_block_at (k i : nat) (l : list slice) (b : slice) (w : world) :
  blocks (mgr w) !! k = Some l -> l !! i = Some b ->
  run (block_at (Z.of_nat k) i) w = Ret b w.
Proof.
  intros Hl Hb. unfold block_at. rewrite run_bind, (run_blocks_at_Some _ l) by done.
  simpl. by apply run_index_Some.
Qed.

Lemma run_addr0 (b : slice) (w : world) :
  nonempty b -> run (addr0 b) w = Ret (sl_arr b, sl_off b) w.
Proof.
  unfold nonempty, addr0. intros H.
  destruct (Nat.eqb_spec (sl_len b) 0); [done|done].
Qed.

Lemma run_zero_loop (s i : nat) (l : list slice) (b : slice) (k j : nat) (w : world) :
  blocks (mgr w) !! s = Some l -> l !! i = Some b ->
  (j + k <= sl_len b)%nat ->
  run (zero_loop (Z.of_nat s) i k j) w = Ret tt (set_heap w (zero_heap b k j (heap w))).
Proof.
  revert j w. induction k as [|k IH]; intros j w Hl Hb Hk.
  - simpl. by destruct w.
  - cbn [zero_loop zero_heap]. rewrite run_bind, (run_block_at _ _ l b) by done.
    cbn [then_do]. rewrite run_bind. unfold store.
    destruct (Nat.ltb_spec j (sl_len b)); [|lia].
    rewrite run_act by done. cbn [then_do fst snd prim_sem].
    rewrite IH; [done|done|done|lia].
Qed.

Lemma run_scan (s : nat) (l : list slice) (k i : nat) (w : world) :
  blocks (mgr w) !! s = Some l -> Forall nonempty l ->
  length l = (i + k)%nat ->
  run (scan (Z.of_nat s) k i) w =
  match first_free (used (mgr w)) (drop i l) with
  | None => Ret None w
  | Some b => Ret (Some b) (reuse b w)
  end.
Proof.
  intros Hl Hne. revert i. induction k as [|k IH]; intros i Hlen.
  - simpl. rewrite drop_ge by lia. done.
  - destruct (lookup_lt_is_Some_2 l i) as [b Hb]; [lia|].
    assert (nonempty b) as Hb0.
    { eapply Forall_forall; [apply Hne|]. apply list_elem_of_lookup. eauto. }
    rewrite (drop_S _ _ _ Hb). cbn [scan first_free].
    rewrite run_bind, (run_block_at _ _ l b) by done. cbn [then_do].
    rewrite run_bind, run_addr0 by done. cbn [then_do].
    rewrite run_bind. unfold used_get. rewrite run_bind, run_act by done.
    cbn [then_do fst snd prim_sem run]. unfold is_used.
    destruct (default false (used (mgr w) !! (sl_arr b, sl_off b))) eqn:Hu; cbn [negb].
    + apply IH. lia.
    + rewrite run_bind, (run_block_at _ _ l b) by done. cbn [then_do].
      rewrite run_bind, run_addr0 by done. cbn [then_do].
      rewrite run_bind, run_act by done. cbn [then_do fst snd prim_sem].
      rewrite run_bind. unfold zero_block.
      rewrite run_bind, (run_block_at _ _ l b) by done. cbn [then_do].
      rewrite (run_zero_loop s i l b) by (try done; lia). cbn [then_do].
      rewrite run_bind, (run_block_at _ _ l b) by done. done.
Qed.

Lemma run_make (c : Z) (w : world) :
  0 <= c ->
  run (make c) w =
  Ret (fresh_block (Z.to_nat c) w) (set_heap w (heap w ++ [replicate (Z.to_nat c) Byte.x00])).
Proof.
  intros H. unfold make. destruct (Z.ltb_spec c 0); [lia|]. by rewrite run_act.
Qed.

Lemma run_get_in_class (n c : Z) (k : nat) (l : list slice) (w : world) :
  0 < c ->
  blocks (mgr w) !! k = Some l -> Forall nonempty l ->
  run (get_in_class n c (Z.of_nat k)) w = get_in_class_outcome n (Z.to_nat c) k l w.
Proof.
  intros Hc Hl Hne. unfold get_in_class, get_in_class_outcome.
  rewrite run_bind, (run_blocks_at_Some _ l) by done. cbn [then_do].
  rewrite run_bind, (run_scan k l) by (try done; lia). rewrite drop_0.
  destruct (first_free (used (mgr w)) l) as [b|]; cbn [then_do run]; [done|].
  rewrite run_bind, run_make by lia. cbn [then_do].
  rewrite run_bind, (run_blocks_at_Some _ l) by done. cbn [then_do].
  rewrite run_bind, run_act by done. cbn [then_do fst snd prim_sem].
  rewrite Nat2Z.id.
  rewrite run_bind, run_addr0 by (unfold nonempty, fresh_block; simpl; lia).
  cbn [then_do]. rewrite run_bind, run_act by done. cbn [then_do fst snd prim_sem].
  unfold reslice0, sliced, fresh_block. cbn [sl_cap sl_arr sl_off].
  destruct ((n <? 0) || (Z.of_nat (Z.to_nat c) <? n)); done.
Qed.

Lemma run_get_in_class_out (n c s : Z) (w : world) :
  s < 0 \/ Z.of_nat (length (blocks (mgr w))) <= s ->
  run (get_in_class n c s) w = Panicked (IndexOutOfRange s (length (blocks (mgr w)))) w.
Proof.
  intros H. unfold get_in_class. by rewrite run_bind, run_blocks_at_None.
Qed.

Lemma set_mutex_same (w : world) (b : bool) : mutex (mgr w) = b -> set_mutex b w = w.
Proof. destruct w as [h [mu bs u]]. simpl. by intros ->. Qed.

Lemma reuse_locked (b : slice) (w : world) :
  mutex (mgr w) = false -> set_mutex false (reuse b (set_mutex true w)) = reuse b w.
Proof. destruct w as [h [mu bs u]]. simpl. by intros ->. Qed.

Lemma grow_locked (k c : nat) (l : list slice) (w : world) :
  mutex (mgr w) = false -> set_mutex false (grow k c l (set_mutex true w)) = grow k c l w.
Proof. destruct w as [h [mu bs u]]. simpl. by intros ->. Qed.

Lemma unlock_locked (w : world) :
  mutex (mgr w) = false -> set_mutex false (set_mutex true w) = w.
Proof. destruct w as [h [mu bs u]]. simpl. by intros ->. Qed.

(** [GetBlock] as a function of the world it is called in, for a request
    whose class is inside the class table. *)
Lemma run_GetBlock (n : Z) (k : nat) (l : list slice) (w : world) :
  mutex (mgr w) = false ->
  find_class n = Some (class_size k, Z.of_nat k) ->
  blocks (mgr w) !! k = Some l -> Forall nonempty l ->
  run (GetBlock n) w = get_in_class_outcome n (Z.to_nat (class_size k)) k l w.
Proof.
  intros Hm Hc Hl Hne. unfold GetBlock. rewrite run_with_lock, Hm.
  unfold GetBlock_body. rewrite Hc.
  rewrite (run_get_in_class _ _ _ l) by (try done; apply class_size_pos).
  unfold get_in_class_outcome, sliced. cbn [set_mutex set_mgr mgr used heap].
  destruct (first_free (used (mgr w)) l) as [b|].
  - f_equal. by apply reuse_locked.
  - destruct ((n <? 0) || _); f_equal; by apply grow_locked.
Qed.

(** A class index outside the class table: the index expression
    [m.blocks[s]] panics, the deferred [Unlock] runs. *)
Lemma run_GetBlock_out (n c s : Z) (w : world) :
  mutex (mgr w) = false ->
  find_class n = Some (c, s) ->
  Z.of_nat (length (blocks (mgr w))) <= s ->
  run (GetBlock n) w = Panicked (IndexOutOfRange s (length (blocks (mgr w)))) w.
Proof.
  intros Hm Hc Hs. unfold GetBlock. rewrite run_with_lock, Hm.
  unfold GetBlock_body. rewrite Hc. rewrite run_get_in_class_out by (right; done).
  cbn [set_mutex set_mgr mgr blocks]. f_equal. by apply unlock_locked.
Qed.

(** A class search that does not end: the call never returns, and the
    mutex stays locked. *)
Lemma run_GetBlock_diverge (n : Z) (w : world) :
  mutex (mgr w) = false ->
  find_class n = None ->
  run (GetBlock n) w = Diverge (set_mutex true w).
Proof.
  intros Hm Hc. unfold GetBlock. rewrite run_with_lock, Hm.
  unfold GetBlock_body. by rewrite Hc.
Qed.

Lemma run_FreeBlock (b : slice) (w : world) :
  mutex (mgr w) = false -> run (FreeBlock b) w = FreeBlock_outcome b w.
Proof.
  intros Hm. unfold FreeBlock, FreeBlock_outcome. rewrite run_with_lock, Hm.
  unfold FreeBlock_body, addr0.
  destruct (sl_len b =? 0)%nat; cbn [bind run].
  - f_equal. by apply unlock_locked.
  - rewrite run_bind, run_act by done.
    cbn [then_do fst snd prim_sem set_mutex set_mgr mgr used].
    destruct (used (mgr w) !! (sl_arr b, sl_off b)) as [v|]; cbn [run bind].
    + rewrite run_act by done. f_equal.
      destruct w as [h [mu bs u]]. simpl in *. by subst.
    + f_equal. by apply unlock_locked.
Qed.

(** ** Programs that only read *)

Lemma read_only_bind {A B : Type} (m : prog A) (f : A -> prog B) :
  read_only m -> (forall a, read_only (f a)) -> read_only (bind m f).
Proof.
  intros Hm Hf. induction m as [a|e| |X e k IH]; simpl in *; try done.
  destruct Hm as [He Hk]. split; [done|]. intros x. by apply IH.
Qed.

Lemma read_only_index {A : Type} (l : list A) (i : Z) : read_only (index l i).
Proof. unfold index. destruct (_ || _); [done|]. by destruct (l !! Z.to_nat i). Qed.

Lemma read_only_blocks_at (s : Z) : read_only (blocks_at s).
Proof. split; [done|]. intros bs. apply read_only_index. Qed.

Lemma read_only_block_at (s : Z) (i : nat) : read_only (block_at s i).
Proof.
  apply read_only_bind; [apply read_only_blocks_at|]. intros l. apply read_only_index.
Qed.

Lemma read_only_addr0 (b : slice) : read_only (addr0 b).
Proof. unfold addr0. by destruct (sl_len b =? 0)%nat. Qed.

Lemma read_only_used_get (p : ptr) : read_only (used_get p).
Proof. split; [done|]. by intros o. Qed.

Lemma read_only_count_used (s : Z) (k i : nat) (cnt : Z) :
  read_only (count_used s k i cnt).
Proof.
  revert i cnt. induction k as [|k IH]; intros i cnt; [done|].
  cbn [count_used].
  apply read_only_bind; [apply read_only_block_at|]. intros b.
  apply read_only_bind; [apply read_only_addr0|]. intros p.
  apply read_only_bind; [apply read_only_used_get|]. intros u. apply IH.
Qed.

Lemma read_only_report_class (s : Z) (v : report_vars) : read_only (report_class s v).
Proof.
  unfold report_class.
  apply read_only_bind; [apply read_only_blocks_at|]. intros l.
  apply read_only_bind; [apply read_only_count_used|]. intros cnt.
  apply read_only_bind.
  - destruct (0 <? cnt); [|done].
    apply read_only_bind; [apply read_only_blocks_at|]. done.
  - intros ret'. apply read_only_bind; [apply read_only_blocks_at|]. done.
Qed.

Lemma read_only_report_loop (k s : nat) (v : report_vars) : read_only (report_loop k s v).
Proof.
  revert s v. induction k as [|k IH]; intros s v; [done|].
  cbn [report_loop]. apply read_only_bind; [apply read_only_report_class|].
  intros v'. apply IH.
Qed.

Lemma read_only_TotalAllocations : read_only TotalAllocations.
Proof.
  unfold TotalAllocations. apply read_only_bind; [by split|]. intros bs.
  apply read_only_bind; [apply read_only_report_loop|]. done.
Qed.

(** A read-only program ends in the world it started in. *)
Lemma run_read_only {A : Type} (p : prog A) (w : world) :
  read_only p ->
  (exists a, run p w = Ret a w) \/ (exists e, run p w = Panicked e w).
Proof.
  revert w. induction p as [a|e| |X e k IH]; intros w Hp; simpl in *.
  - left. by exists a.
  - right. by exists e.
  - done.
  - destruct Hp as [He Hk].
    destruct e; try discriminate He; simpl; apply IH, Hk.
Qed.

(** ** The invariant of the manager *)

Lemma class_size_nat_pos (s : nat) : (0 < Z.to_nat (class_size s))%nat.
Proof. pose proof (class_size_pos s). lia. Qed.

Lemma block_ok_nonempty (h : list (list Byte.byte)) (s : nat) (b : slice) :
  block_ok h s b -> nonempty b.
Proof.
  intros (k & _ & _ & Hlen & _). unfold nonempty. pose proof (class_size_nat_pos s). lia.
Qed.

Lemma wf_nonempty (w : world) (s : nat) (l : list slice) :
  wf w -> blocks (mgr w) !! s = Some l -> Forall nonempty l.
Proof.
  intros Hw Hl. apply Forall_forall. intros b Hb.
  eapply block_ok_nonempty, wf_block; eauto.
Qed.

Lemma wf_class (w : world) (k : nat) :
  wf w -> (k < numClasses)%nat -> is_Some (blocks (mgr w) !! k).
Proof. intros Hw Hk. apply lookup_lt_is_Some_2. by rewrite (wf_classes _ Hw). Qed.

Lemma wf_NewWorld : wf NewWorld.
Proof.
  split.
  - reflexivity.
  - intros s l b Hl Hb. unfold NewWorld, NewManager in Hl. cbn [mgr blocks] in Hl.
    apply lookup_replicate in Hl as [-> _].
    by apply elem_of_nil in Hb.
  - intros p v H. simpl in H. by rewrite lookup_empty in H.
Qed.

Lemma shape_poke (p : ptr) (v : Byte.byte) (h : list (list Byte.byte)) :
  length <$> poke p v h = length <$> h.
Proof.
  unfold poke. destruct p as [[k|k] o]; simpl; [|done].
  apply list_eq. intros i. rewrite !list_lookup_fmap.
  destruct (decide (k = i)) as [->|Hne].
  - rewrite list_lookup_alter_eq. destruct (h !! i); simpl; [|done].
    by rewrite length_insert.
  - by rewrite list_lookup_alter_ne.
Qed.

Lemma shape_zero_heap (b : slice) (k j : nat) (h : list (list Byte.byte)) :
  length <$> zero_heap b k j h = length <$> h.
Proof.
  revert j h. induction k as [|k IH]; intros j h; simpl; [done|].
  by rewrite IH, shape_poke.
Qed.

(** The invariant looks at the sizes of the arrays, not at their bytes. *)
Lemma wf_shape (w w' : world) :
  length <$> heap w' = length <$> heap w ->
  blocks (mgr w') = blocks (mgr w) ->
  used (mgr w') = used (mgr w) ->
  wf w -> wf w'.
Proof.
  intros Hh Hb Hu [H1 H2 H3]. split.
  - by rewrite Hb.
  - intros s l b Hl Hin. rewrite Hb in Hl. unfold block_ok. rewrite Hh. by eapply H2.
  - intros p v Hp. rewrite Hu in Hp. rewrite Hb. by apply H3.
Qed.

Lemma first_free_Some (u : gmap ptr bool) (l : list slice) (b : slice) :
  first_free u l = Some b -> b ∈ l /\ is_used u b = false.
Proof.
  induction l as [|b' l IH]; simpl; [done|].
  destruct (is_used u b') eqn:E.
  - intros H. apply IH in H as [? ?]. split; [by apply elem_of_cons; right|done].
  - intros [= ->]. split; [apply elem_of_cons; by left|done].
Qed.

Lemma first_free_None (u : gmap ptr bool) (l : list slice) :
  first_free u l = None <-> Forall (fun b => is_used u b = true) l.
Proof.
  induction l as [|b' l IH]; simpl.
  - split; [constructor|done].
  - destruct (is_used u b') eqn:E.
    + rewrite IH. split; [by constructor|by inversion 1].
    + split; [done|]. inversion 1; congruence.
Qed.

Lemma wf_reuse (w : world) (s : nat) (l : list slice) (b : slice) :
  wf w -> blocks (mgr w) !! s = Some l -> b ∈ l -> wf (reuse b w).
Proof.
  intros Hw Hl Hb. destruct Hw as [H1 H2 H3]. split; simpl.
  - done.
  - intros s' l' b' Hl' Hb'. unfold block_ok. rewrite shape_zero_heap. by eapply H2.
  - intros p v Hp. destruct (decide (p = (sl_arr b, sl_off b))) as [->|Hne].
    + rewrite lookup_insert_eq in Hp. injection Hp as <-. split; [done|].
      by exists s, l, b.
    + rewrite lookup_insert_ne in Hp by done. by apply H3.
Qed.

Lemma wf_grow (w : world) (k : nat) (l : list slice) :
  wf w -> blocks (mgr w) !! k = Some l ->
  wf (grow k (Z.to_nat (class_size k)) l w).
Proof.
  intros Hw Hl. destruct Hw as [H1 H2 H3].
  pose proof (lookup_lt_Some _ _ _ Hl) as Hk.
  assert (forall s' b', block_ok (heap w) s' b' ->
            block_ok (heap w ++ [replicate (Z.to_nat (class_size k)) Byte.x00]) s' b') as Hext.
  { intros s' b' (a & ? & ? & ? & ? & Ha). exists a. repeat split; try done.
    rewrite fmap_app, lookup_app_l; [done|]. by apply lookup_lt_Some in Ha. }
  split; simpl.
  - by rewrite length_insert.
  - intros s' l' b' Hl' Hb'. destruct (decide (k = s')) as [<-|Hne].
    + rewrite list_lookup_insert_eq in Hl' by done. injection Hl' as <-.
      apply elem_of_app in Hb' as [Hb'|Hb'].
      * apply Hext. by eapply H2.
      * apply list_elem_of_singleton in Hb' as ->. exists (length (heap w)).
        repeat split; try done. simpl.
        rewrite fmap_app, lookup_app_r by (by rewrite length_fmap).
        rewrite length_fmap, Nat.sub_diag. simpl. by rewrite length_replicate.
    + rewrite list_lookup_insert_ne in Hl' by done. apply Hext. by eapply H2.
  - intros p v Hp. destruct (decide (p = (Pool (length (heap w)), 0%nat))) as [->|Hne].
    + rewrite lookup_insert_eq in Hp. injection Hp as <-. split; [done|].
      exists k, (l ++ [fresh_block (Z.to_nat (class_size k)) w]),
        (fresh_block (Z.to_nat (class_size k)) w).
      rewrite list_lookup_insert_eq by done. split; [done|].
      split; [|done]. apply elem_of_app. right. by apply list_elem_of_singleton.
    + rewrite lookup_insert_ne in Hp by done.
      destruct (H3 _ _ Hp) as (-> & s' & l' & b' & Hl' & Hb' & ->). split; [done|].
      destruct (decide (k = s')) as [<-|Hks].
      * exists k, (l ++ [fresh_block (Z.to_nat (class_size k)) w]), b'.
        rewrite list_lookup_insert_eq by done. split; [done|].
        split; [|done]. apply elem_of_app. left. congruence.
      * exists s', l', b'. by rewrite list_lookup_insert_ne.
Qed.

Lemma run_GetBlock_outcome (n : Z) (w : world) :
  wf w -> mutex (mgr w) = false -> run (GetBlock n) w = GetBlock_outcome n w.
Proof.
  intros Hw Hm. unfold GetBlock_outcome.
  destruct (find_class n) as [[c s]|] eqn:Hc.
  - destruct (find_class_Some _ _ _ Hc) as (k & Hk & -> & -> & _).
    rewrite Nat2Z.id.
    destruct (blocks (mgr w) !! k) as [l|] eqn:Hl.
    + apply run_GetBlock; try done. by eapply wf_nonempty.
    + eapply run_GetBlock_out; [done|done|].
      apply lookup_ge_None in Hl. lia.
  - by apply run_GetBlock_diverge.
Qed.

Lemma wf_set_used_delete (w : world) (p : ptr) :
  wf w -> wf (set_used (delete p (used (mgr w))) w).
Proof.
  intros [H1 H2 H3]. split; simpl; [done|done|].
  intros q v Hq. apply lookup_delete_Some in Hq as [_ Hq]. by apply H3.
Qed.

Lemma wf_get_in_class_outcome (n : Z) (k : nat) (l : list slice) (w : world) :
  wf w -> blocks (mgr w) !! k = Some l ->
  wf (final_world (get_in_class_outcome n (Z.to_nat (class_size k)) k l w)).
Proof.
  intros Hw Hl. unfold get_in_class_outcome, sliced.
  destruct (first_free (used (mgr w)) l) as [b|] eqn:Hf; simpl.
  - apply first_free_Some in Hf as [Hb _]. by eapply wf_reuse.
  - destruct (_ || _); simpl; by apply wf_grow.
Qed.

Lemma mutex_get_in_class_outcome (n : Z) (c k : nat) (l : list slice) (w : world) :
  mutex (mgr (final_world (get_in_class_outcome n c k l w))) = mutex (mgr w).
Proof.
  unfold get_in_class_outcome, sliced.
  destruct (first_free (used (mgr w)) l); [done|]. by destruct (_ || _).
Qed.

(** Every call that ends keeps the invariant and leaves the mutex free. *)
Lemma call_preserves (w : world) (c : call) :
  wf w -> mutex (mgr w) = false ->
  match run (call_prog c) w with
  | Ret _ w' | Panicked _ w' => wf w' /\ mutex (mgr w') = false
  | Diverge _ => True
  end.
Proof.
  intros Hw Hm. destruct c as [n|b| |b j v]; cbn [call_prog]; rewrite run_bind.
  - rewrite run_GetBlock_outcome by done. unfold GetBlock_outcome.
    destruct (find_class n) as [[c s]|] eqn:Hc; [|done].
    destruct (find_class_Some _ _ _ Hc) as (k & Hk & -> & -> & _).
    rewrite Nat2Z.id.
    destruct (blocks (mgr w) !! k) as [l|] eqn:Hl; [|done].
    pose proof (wf_get_in_class_outcome n k l w Hw Hl) as Hw'.
    pose proof (mutex_get_in_class_outcome n (Z.to_nat (class_size k)) k l w) as Hm'.
    destruct (get_in_class_outcome n (Z.to_nat (class_size k)) k l w);
      simpl in *; (split; [done|congruence]) || done.
  - rewrite run_FreeBlock by done. unfold FreeBlock_outcome.
    destruct (sl_len b =? 0)%nat; [done|].
    destruct (used (mgr w) !! (sl_arr b, sl_off b)); simpl; [|done].
    split; [by apply wf_set_used_delete|done].
  - destruct (run_read_only TotalAllocations w read_only_TotalAllocations)
      as [[a ->]|[e ->]]; done.
  - unfold store. destruct (j <? sl_len b)%nat; [|done].
    rewrite run_act by done. simpl. split; [|done].
    eapply wf_shape; [| | |exact Hw]; simpl; [apply shape_poke|done|done].
Qed.

Lemma reachable_wf (w : world) : reachable w -> wf w /\ mutex (mgr w) = false.
Proof.
  induction 1 as [|w c r w' _ [Hw Hm] _ Hrun|w c e w' _ [Hw Hm] _ Hrun].
  - split; [apply wf_NewWorld|done].
  - pose proof (call_preserves w c Hw Hm) as H. by rewrite Hrun in H.
  - pose proof (call_preserves w c Hw Hm) as H. by rewrite Hrun in H.
Qed.

(** ** Clearing a block *)

Lemma poke_lookup (k o : nat) (v : Byte.byte) (h : list (list Byte.byte)) (a : list Byte.byte) :
  h !! k = Some a -> poke (Pool k, o) v h !! k = Some (<[o := v]> a).
Proof. intros H. unfold poke. simpl. by rewrite list_lookup_alter_eq, H. Qed.

Lemma poke_lookup_ne (k k' o : nat) (v : Byte.byte) (h : list (list Byte.byte)) :
  k <> k' -> poke (Pool k, o) v h !! k' = h !! k'.
Proof. intros H. unfold poke. simpl. by rewrite list_lookup_alter_ne. Qed.

Lemma zero_heap_lookup (b : slice) (k n j : nat) (h : list (list Byte.byte))
    (a : list Byte.byte) :
  sl_arr b = Pool k -> h !! k = Some a ->
  (sl_off b + j + n <= length a)%nat ->
  zero_heap b n j h !! k
  = Some (take (sl_off b + j) a ++ replicate n Byte.x00 ++ drop (sl_off b + j + n) a).
Proof.
  intros Hb. revert j h a. induction n as [|n IH]; intros j h a Ha Hlen.
  - simpl. by rewrite Nat.add_0_r, take_drop.
  - cbn [zero_heap]. rewrite Hb.
    rewrite (IH (S j) _ (<[(sl_off b + j)%nat := Byte.x00]> a)).
    + f_equal. replace (sl_off b + S j)%nat with (S (sl_off b + j)) by lia.
      rewrite (take_S_r _ _ Byte.x00).
      2:{ apply list_lookup_insert_eq. lia. }
      rewrite take_insert_ge by lia.
      rewrite drop_insert_lt by lia.
      rewrite <- app_assoc. simpl.
      repeat f_equal. lia.
    + by apply poke_lookup.
    + rewrite length_insert. lia.
Qed.

Lemma zero_heap_lookup_ne (b : slice) (k k' n j : nat) (h : list (list Byte.byte)) :
  sl_arr b = Pool k -> k <> k' -> zero_heap b n j h !! k' = h !! k'.
Proof.
  intros Hb Hne. revert j h. induction n as [|n IH]; intros j h; simpl; [done|].
  rewrite IH, Hb. by apply poke_lookup_ne.
Qed.

(** A reused block shows zeros only, whatever it held. *)
Lemma view_bytes_reuse (w : world) (s : nat) (b : slice) :
  block_ok (heap w) s b ->
  view_bytes (reuse b w) b = replicate (sl_len b) Byte.x00.
Proof.
  intros (k & Harr & Hoff & Hlen & Hcap & Hk).
  rewrite list_lookup_fmap in Hk. destruct (heap w !! k) as [a|] eqn:Ha; [|done].
  injection Hk as Hk.
  unfold view_bytes, reuse. rewrite Harr. cbn [heap set_heap].
  rewrite (zero_heap_lookup b k (sl_len b) 0 (heap w) a) by (try done; lia).
  rewrite Hoff. simpl. rewrite drop_0.
  rewrite take_app_le by (by rewrite length_replicate).
  rewrite take_ge by (by rewrite length_replicate). done.
Qed.

Lemma valid_view1000 (w : world) (a : list Byte.byte) :
  heap w !! 0%nat = Some a -> length a = 1024%nat -> valid_slice w view1000.
Proof.
  intros Ha Hlen. split; simpl; [lia|]. exists a. split; [done|]. rewrite Hlen. lia.
Qed.

Lemma reachable_w_taken : reachable w_taken.
Proof.
  eapply (reachable_ret NewWorld (CallGetBlock 1000)); [apply reachable_new|done|].
  vm_compute. reflexivity.
Qed.

Lemma reachable_w_scribbled : reachable w_scribbled.
Proof.
  eapply (reachable_ret w_taken (CallWrite view1000 7 Byte.xff));
    [apply reachable_w_taken| |vm_compute; reflexivity].
  eapply valid_view1000; vm_compute; reflexivity.
Qed.

Lemma reachable_w_freed : reachable w_freed.
Proof.
  eapply (reachable_ret w_scribbled (CallFreeBlock view1000));
    [apply reachable_w_scribbled| |vm_compute; reflexivity].
  eapply valid_view1000; vm_compute; reflexivity.
Qed.

Example scribble_is_there : view_bytes w_freed view1000 !! 7%nat = Some Byte.xff.
Proof. vm_compute. reflexivity. Qed.

(** ** What [GetBlock] returns *)

(** An in-range request: the class is the least one that holds it, it is
    inside the class table, and the call is [get_in_class_outcome] on it. *)
Lemma GetBlock_in_range (w : world) (n : Z) :
  wf w -> mutex (mgr w) = false -> n <= 2 ^ 30 ->
  exists k l, (k < numClasses)%nat /\ n <= class_size k /\
              (forall j', (j' < k)%nat -> class_size j' < n) /\
              blocks (mgr w) !! k = Some l /\
              run (GetBlock n) w = get_in_class_outcome n (Z.to_nat (class_size k)) k l w.
Proof.
  intros Hw Hm Hn.
  destruct (find_class_in_range n Hn) as (k & Hk & Hc & Hle & Hlt).
  destruct (wf_class w k Hw Hk) as [l Hl].
  exists k, l. repeat split; try done.
  apply run_GetBlock; try done. by eapply wf_nonempty.
Qed.

(** The new-block path returns [new_block[0:n]]. *)
Lemma get_in_class_outcome_fresh (n : Z) (c k : nat) (l : list slice) (w : world) :
  first_free (used (mgr w)) l = None -> 0 <= n <= Z.of_nat c ->
  get_in_class_outcome n c k l w
  = Ret (mkSlice (Pool (length (heap w))) 0 (Z.to_nat n) c) (grow k c l w).
Proof.
  intros Hf Hn. unfold get_in_class_outcome, sliced. rewrite Hf.
  destruct (Z.ltb_spec n 0); [lia|]. destruct (Z.ltb_spec (Z.of_nat c) n); [lia|]. done.
Qed.

(** The reuse path returns [m.blocks[s][i]], the whole block. *)
Lemma get_in_class_outcome_reuse (n : Z) (c k : nat) (l : list slice) (b : slice) (w : world) :
  first_free (used (mgr w)) l = Some b ->
  get_in_class_outcome n c k l w = Ret b (reuse b w).
Proof. intros Hf. unfold get_in_class_outcome. by rewrite Hf. Qed.

(** A view on a block that existed before the call is a reused block. *)
Lemma Ret_existing_is_reuse (n : Z) (k : nat) (l : list slice) (w : world)
    (v : slice) (w' : world) :
  wf w ->
  get_in_class_outcome n (Z.to_nat (class_size k)) k l w = Ret v w' ->
  (exists s l0 b, blocks (mgr w) !! s = Some l0 /\ b ∈ l0 /\ sl_arr b = sl_arr v) ->
  first_free (used (mgr w)) l = Some v /\ w' = reuse v w.
Proof.
  intros Hw Hrun (s & l0 & b & Hl0 & Hb & Harr).
  unfold get_in_class_outcome, sliced in Hrun.
  destruct (first_free (used (mgr w)) l) as [b'|] eqn:Hf.
  - by injection Hrun as -> ->.
  - destruct (_ || _); [done|]. injection Hrun as <- _. simpl in Harr.
    destruct (wf_block _ Hw _ _ _ Hl0 Hb) as (a & Ha & _ & _ & _ & Hk).
    rewrite Harr in Ha. injection Ha as <-.
    apply lookup_lt_Some in Hk. rewrite length_fmap in Hk. lia.
Qed.

(** C2. A block that was freed and is handed out again by [GetBlock] (the
    view returned is backed by a block the manager already had) shows only
    zero bytes, in every world calls and writes of any bytes lead to. *)
Theorem GetBlock_reuse_is_zeroed (w : world) (n : Z) (v : slice) (w' : world) :
  reachable w ->
  run (GetBlock n) w = Ret v w' ->
  (exists s l b, blocks (mgr w) !! s = Some l /\ b ∈ l /\ sl_arr b = sl_arr v) ->
  view_bytes w' v = replicate (sl_len v) Byte.x00.
Proof.
  intros [Hw Hm]%reachable_wf Hrun Hold.
  rewrite run_GetBlock_outcome in Hrun by done. unfold GetBlock_outcome in Hrun.
  destruct (find_class n) as [[c s]|] eqn:Hc; [|done].
  destruct (find_class_Some _ _ _ Hc) as (k & _ & -> & -> & _).
  rewrite Nat2Z.id in Hrun.
  destruct (blocks (mgr w) !! k) as [l|] eqn:Hl; [|done].
  destruct (Ret_existing_is_reuse _ _ _ _ _ _ Hw Hrun Hold) as [Hf ->].
  apply first_free_Some in Hf as [Hb _].
  eapply view_bytes_reuse, wf_block; eauto.
Qed.

Lemma GetBlock_reuse_is_zeroed_witness :
  view_bytes (after [CallGetBlock 500] w_freed) (mkSlice (Pool 0) 0 1024 1024)
  = replicate 1024 Byte.x00.
Proof.
  apply (GetBlock_reuse_is_zeroed w_freed 500 (mkSlice (Pool 0) 0 1024 1024)).
  - apply reachable_w_freed.
  - vm_compute. reflexivity.
  - exists 0%nat, [mkSlice (Pool 0) 0 1024 1024], (mkSlice (Pool 0) 0 1024 1024).
    split; [vm_compute; reflexivity|]. split; [|reflexivity].
    apply elem_of_cons. left. reflexivity.
Defined.

(** C3. For a request of [0 <= n <= 2^30] bytes [GetBlock] returns a view
    on a block of class [s]: an array of [smallestBlockSize * 2^s >= n]
    bytes, where every smaller class is too small for [n]. *)
Theorem GetBlock_smallest_class (w : world) (n : Z) :
  reachable w -> 0 <= n <= 2 ^ 30 ->
  exists v w' s l b k a,
    run (GetBlock n) w = Ret v w' /\
    (s < numClasses)%nat /\
    blocks (mgr w') !! s = Some l /\ b ∈ l /\
    sl_arr b = sl_arr v /\ sl_off b = sl_off v /\ sl_cap b = sl_cap v /\
    sl_arr v = Pool k /\ heap w' !! k = Some a /\
    Z.of_nat (length a) = class_size s /\
    Z.of_nat (sl_cap v) = class_size s /\
    n <= class_size s /\
    (forall s', (s' < s)%nat -> class_size s' < n).
Proof.
  intros [Hw Hm]%reachable_wf Hn.
  destruct (GetBlock_in_range w n Hw Hm) as (s & l & Hs & Hle & Hlt & Hl & Hrun); [lia|].
  pose proof (class_size_pos s) as Hpos.
  pose proof (wf_get_in_class_outcome n s l w Hw Hl) as Hw'.
  destruct (first_free (used (mgr w)) l) as [b|] eqn:Hf.
  - rewrite (get_in_class_outcome_reuse _ _ _ _ b) in Hrun, Hw' by done. simpl in Hw'.
    apply first_free_Some in Hf as [Hb _].
    destruct (wf_block _ Hw' s l b Hl Hb) as (k & Harr & Hoff & Hlen & Hcap & Hk).
    rewrite list_lookup_fmap in Hk.
    destruct (heap (reuse b w) !! k) as [a|] eqn:Ha; [|done]. injection Hk as Hk.
    exists b, (reuse b w), s, l, b, k, a. repeat split; try done; lia.
  - rewrite get_in_class_outcome_fresh in Hrun, Hw' by (try done; lia). simpl in Hw'.
    set (c := Z.to_nat (class_size s)) in *.
    set (w' := grow s c l w) in *.
    assert (blocks (mgr w') !! s = Some (l ++ [fresh_block c w])) as Hl'.
    { simpl. apply list_lookup_insert_eq. by apply lookup_lt_Some in Hl. }
    assert (fresh_block c w ∈ l ++ [fresh_block c w]) as Hb.
    { apply elem_of_app. right. by apply list_elem_of_singleton. }
    destruct (wf_block _ Hw' s _ _ Hl' Hb) as (k & Harr & Hoff & Hlen & Hcap & Hk).
    rewrite list_lookup_fmap in Hk.
    destruct (heap w' !! k) as [a|] eqn:Ha; [|done]. injection Hk as Hk.
    exists (mkSlice (Pool (length (heap w))) 0 (Z.to_nat n) c), w', s,
      (l ++ [fresh_block c w]), (fresh_block c w), k, a.
    repeat split; try done; simpl; lia.
Qed.

Lemma GetBlock_smallest_class_witness :
  exists v w' s l b k a,
    run (GetBlock 2000) NewWorld = Ret v w' /\
    (s < numClasses)%nat /\
    blocks (mgr w') !! s = Some l /\ b ∈ l /\
    sl_arr b = sl_arr v /\ sl_off b = sl_off v /\ sl_cap b = sl_cap v /\
    sl_arr v = Pool k /\ heap w' !! k = Some a /\
    Z.of_nat (length a) = class_size s /\
    Z.of_nat (sl_cap v) = class_size s /\
    2000 <= class_size s /\
    (forall s', (s' < s)%nat -> class_size s' < 2000).
Proof.
  apply (GetBlock_smallest_class NewWorld 2000).
  - apply reachable_new.
  - lia.
Defined.

Lemma used_is_block (w : world) (b : slice) (k : nat) :
  wf w -> sl_arr b = Foreign k -> used (mgr w) !! (sl_arr b, sl_off b) = None.
Proof.
  intros Hw Hb. destruct (used (mgr w) !! (sl_arr b, sl_off b)) as [v|] eqn:E; [|done].
  destruct (wf_used _ Hw _ _ E) as (_ & s & l & b' & Hl & Hb' & Heq).
  destruct (wf_block _ Hw _ _ _ Hl Hb') as (a & Ha & _).
  injection Heq as Heq _. congruence.
Qed.

(** C4. [FreeBlock] on a view whose first byte is not a key of the
    checked-out set panics and changes nothing; so it does on any view of
    memory the manager never allocated, and on the second of two
    [FreeBlock] calls in a row on the same view. *)
Theorem FreeBlock_misuse_panics (w : world) (b : slice) :
  reachable w ->
  (used (mgr w) !! (sl_arr b, sl_off b) = None ->
   run (FreeBlock b) w = Panicked (free_panic b) w) /\
  (forall k, sl_arr b = Foreign k ->
   run (FreeBlock b) w = Panicked (free_panic b) w) /\
  (forall w1, run (FreeBlock b) w = Ret tt w1 ->
   run (FreeBlock b) w1 = Panicked (PanicString "Tried to free an unused block") w1).
Proof.
  intros [Hw Hm]%reachable_wf.
  assert (used (mgr w) !! (sl_arr b, sl_off b) = None ->
          run (FreeBlock b) w = Panicked (free_panic b) w) as Hnone.
  { intros Hu. rewrite run_FreeBlock by done. unfold FreeBlock_outcome, free_panic.
    destruct (sl_len b =? 0)%nat; [done|]. by rewrite Hu. }
  split; [done|]. split.
  - intros k Hk. apply Hnone. by eapply used_is_block.
  - intros w1 Hrun. rewrite run_FreeBlock in Hrun by done.
    unfold FreeBlock_outcome in Hrun.
    destruct (sl_len b =? 0)%nat eqn:Hlen; [done|].
    destruct (used (mgr w) !! (sl_arr b, sl_off b)) as [v|] eqn:Hu; [|done].
    injection Hrun as <-. rewrite run_FreeBlock by done.
    unfold FreeBlock_outcome. rewrite Hlen. simpl. by rewrite lookup_delete_eq.
Qed.

Lemma FreeBlock_misuse_panics_witness :
  run (FreeBlock (mkSlice (Foreign 3) 0 16 16)) w_scribbled
  = Panicked (PanicString "Tried to free an unused block") w_scribbled /\
  run (FreeBlock view1000) w_freed
  = Panicked (PanicString "Tried to free an unused block") w_freed.
Proof.
  split.
  - exact (proj1 (proj2 (FreeBlock_misuse_panics w_scribbled
                           (mkSlice (Foreign 3) 0 16 16) reachable_w_scribbled))
                 3%nat eq_refl).
  - apply (proj2 (proj2 (FreeBlock_misuse_panics w_scribbled view1000
                           reachable_w_scribbled))).
    vm_compute. reflexivity.
Defined.

(** C9. [FreeBlock] on a view whose first byte identifies a checked-out
    block returns, deletes that key from the checked-out set and nothing
    else: the other keys, the class table, the mutex and every byte are as
    before; the block is then the kind a later [GetBlock] scan takes. *)
Theorem FreeBlock_only_unmarks (w : world) (b : slice) :
  reachable w -> nonempty b ->
  is_Some (used (mgr w) !! (sl_arr b, sl_off b)) ->
  exists w',
    run (FreeBlock b) w = Ret tt w' /\
    used (mgr w') = delete (sl_arr b, sl_off b) (used (mgr w)) /\
    used (mgr w') !! (sl_arr b, sl_off b) = None /\
    (forall q, q <> (sl_arr b, sl_off b) -> used (mgr w') !! q = used (mgr w) !! q) /\
    blocks (mgr w') = blocks (mgr w) /\
    mutex (mgr w') = mutex (mgr w) /\
    heap w' = heap w /\
    (forall l b0, b0 ∈ l -> sl_arr b0 = sl_arr b -> sl_off b0 = sl_off b ->
                  is_Some (first_free (used (mgr w')) l)).
Proof.
  intros [Hw Hm]%reachable_wf Hne [v Hv].
  exists (set_used (delete (sl_arr b, sl_off b) (used (mgr w))) w).
  rewrite run_FreeBlock by done. unfold FreeBlock_outcome.
  destruct (Nat.eqb_spec (sl_len b) 0) as [H0|_]; [done|]. rewrite Hv. simpl.
  repeat split; try done.
  - by rewrite lookup_delete_eq.
  - intros q Hq. by rewrite lookup_delete_ne.
  - intros l b0 Hb0 Harr Hoff.
    destruct (first_free (delete (sl_arr b, sl_off b) (used (mgr w))) l) eqn:Hf; [done|].
    apply first_free_None in Hf. rewrite Forall_forall in Hf.
    specialize (Hf b0 Hb0). unfold is_used in Hf.
    by rewrite Harr, Hoff, lookup_delete_eq in Hf.
Qed.

Lemma FreeBlock_only_unmarks_witness :
  exists w',
    run (FreeBlock view1000) w_scribbled = Ret tt w' /\
    used (mgr w') = delete (Pool 0, 0%nat) (used (mgr w_scribbled)) /\
    used (mgr w') !! (Pool 0, 0%nat) = None /\
    (forall q, q <> (Pool 0, 0%nat) -> used (mgr w') !! q = used (mgr w_scribbled) !! q) /\
    blocks (mgr w') = blocks (mgr w_scribbled) /\
    mutex (mgr w') = mutex (mgr w_scribbled) /\
    heap w' = heap w_scribbled /\
    (forall l b0, b0 ∈ l -> sl_arr b0 = Pool 0 -> sl_off b0 = 0%nat ->
                  is_Some (first_free (used (mgr w')) l)).
Proof.
  apply (FreeBlock_only_unmarks w_scribbled view1000 reachable_w_scribbled).
  - unfold nonempty. simpl. lia.
  - exists true. vm_compute. reflexivity.
Defined.

(** ** The bytes allocated *)

Lemma allocated_from_snoc (s k : nat) (bs : list (list slice)) (l : list slice) (b : slice) :
  bs !! k = Some l ->
  allocated_from s (<[k := l ++ [b]]> bs) = allocated_from s bs + class_size (s + k).
Proof.
  revert s k. induction bs as [|l0 bs IH]; intros s k Hk; [done|].
  destruct k as [|k]; simpl in *.
  - injection Hk as ->. rewrite length_app, Nat.add_0_r. simpl. lia.
  - rewrite (IH (S s) k Hk). replace (S s + k)%nat with (s + S k)%nat by lia. lia.
Qed.

Lemma total_allocated_grow (k c : nat) (l : list slice) (w : world) :
  blocks (mgr w) !! k = Some l ->
  total_allocated (grow k c l w) = total_allocated w + class_size k.
Proof. intros Hl. unfold total_allocated. simpl. by rewrite (allocated_from_snoc 0 k). Qed.

(** What one call, in any world that satisfies the invariant, does to the
    invariant and to the bytes allocated. *)
Lemma call_allocates (w : world) (c : call) :
  wf w ->
  wf (final_world (run (call_prog c) w)) /\
  (total_allocated (final_world (run (call_prog c) w)) = total_allocated w \/
   exists n k l,
     c = CallGetBlock n /\ find_class n = Some (class_size k, Z.of_nat k) /\
     blocks (mgr w) !! k = Some l /\ first_free (used (mgr w)) l = None /\
     total_allocated (final_world (run (call_prog c) w))
     = total_allocated w + class_size k).
Proof.
  intros Hw. destruct c as [n|b| |b j v]; cbn [call_prog]; rewrite run_bind.
  - destruct (mutex (mgr w)) eqn:Hm.
    { unfold GetBlock. rewrite run_with_lock, Hm. simpl. by split; [|left]. }
    rewrite run_GetBlock_outcome by done. unfold GetBlock_outcome.
    destruct (find_class n) as [[c s]|] eqn:Hc.
    2:{ simpl. split; [|by left]. eapply wf_shape; [| | |exact Hw]; done. }
    destruct (find_class_Some _ _ _ Hc) as (k & Hk & -> & -> & _).
    rewrite Nat2Z.id.
    destruct (blocks (mgr w) !! k) as [l|] eqn:Hl; [|by split; [|left]].
    pose proof (wf_get_in_class_outcome n k l w Hw Hl) as Hw'.
    unfold get_in_class_outcome, sliced in *.
    destruct (first_free (used (mgr w)) l) as [b|] eqn:Hf; simpl in *.
    + by split; [|left].
    + assert (forall o : outcome slice,
                final_world o = grow k (Z.to_nat (class_size k)) l w ->
                final_world (then_do o (fun b w' => Ret (RView b) w'))
                = grow k (Z.to_nat (class_size k)) l w) as Hfin.
      { by intros [a w0|e w0|w0]. }
      rewrite Hfin by (by destruct (_ || _)).
      split; [by destruct (_ || _)|]. right. exists n, k, l.
      repeat split; try done. by apply total_allocated_grow.
  - destruct (mutex (mgr w)) eqn:Hm.
    { unfold FreeBlock. rewrite run_with_lock, Hm. simpl. by split; [|left]. }
    rewrite run_FreeBlock by done. unfold FreeBlock_outcome.
    destruct (sl_len b =? 0)%nat; [by split; [|left]|].
    destruct (used (mgr w) !! (sl_arr b, sl_off b)); simpl; [|by split; [|left]].
    split; [by apply wf_set_used_delete|by left].
  - destruct (run_read_only TotalAllocations w read_only_TotalAllocations)
      as [[a ->]|[e ->]]; by split; [|left].
  - unfold store. destruct (j <? sl_len b)%nat; [|by split; [|left]].
    rewrite run_act by done. simpl. split; [|by left].
    eapply wf_shape; [| | |exact Hw]; simpl; [apply shape_poke|done|done].
Qed.

Lemma after_snoc (cs : list call) (c : call) (w : world) :
  after (cs ++ [c]) w = final_world (run (call_prog c) (after cs w)).
Proof. unfold after. by rewrite fold_left_app. Qed.

Lemma after_app (cs cs' : list call) (w : world) :
  after (cs ++ cs') w = after cs' (after cs w).
Proof. unfold after. by rewrite fold_left_app. Qed.

Lemma wf_after (cs : list call) (w : world) : wf w -> wf (after cs w).
Proof.
  revert w. induction cs as [|c cs IH]; intros w Hw; [done|].
  simpl. apply IH. by apply call_allocates.
Qed.

Lemma total_allocated_after (cs : list call) (w : world) :
  wf w -> total_allocated w <= total_allocated (after cs w).
Proof.
  revert w. induction cs as [|c cs IH]; intros w Hw; [simpl; lia|].
  change (after (c :: cs) w) with (after cs (final_world (run (call_prog c) w))).
  destruct (call_allocates w c Hw) as [Hw' Ht].
  specialize (IH _ Hw').
  destruct Ht as [Ht|(n & k & l & _ & _ & _ & _ & Ht)].
  - lia.
  - pose proof (class_size_pos k). lia.
Qed.

(** C8. Over any sequence of calls on a new manager the total of bytes
    allocated never decreases; a call changes it only if it is a
    [GetBlock] that finds no free block in the class of its request, and
    then by the size of that class. *)
Theorem total_allocated_grows_only_on_miss (cs : list call) :
  (forall cs', total_allocated (after cs NewWorld)
               <= total_allocated (after (cs ++ cs') NewWorld)) /\
  (forall c,
     total_allocated (after (cs ++ [c]) NewWorld) <> total_allocated (after cs NewWorld) ->
     exists n k l,
       c = CallGetBlock n /\
       find_class n = Some (class_size k, Z.of_nat k) /\
       blocks (mgr (after cs NewWorld)) !! k = Some l /\
       first_free (used (mgr (after cs NewWorld))) l = None /\
       total_allocated (after (cs ++ [c]) NewWorld)
       = total_allocated (after cs NewWorld) + class_size k).
Proof.
  pose proof (wf_after cs NewWorld wf_NewWorld) as Hw. split.
  - intros cs'. rewrite after_app. by apply total_allocated_after.
  - intros c Hne. rewrite after_snoc in *.
    destruct (call_allocates _ c Hw) as [_ [Ht|Ht]]; [done|done].
Qed.

Example total_allocated_scenario :
  total_allocated (after [CallGetBlock 2000; CallFreeBlock view2000; CallGetBlock 1500;
                          CallGetBlock 1500; CallGetBlock 0] NewWorld)
  = 2048 + 2048 + 1024.
Proof. vm_compute. reflexivity. Qed.

(** ** Requests beyond the largest class *)

(** C6, as amended.  No bound on the request is checked.  For
    [2^30 < n <= 2^62] the class search ends at an index [s] with
    [21 <= s <= 52], the index expression [m.blocks[s]] panics with an
    index out of range, the deferred [Unlock] runs, and the manager, its
    class table included, is as before the call. *)
Theorem GetBlock_oversized_panics (w : world) (n : Z) :
  reachable w -> 2 ^ 30 < n <= 2 ^ 62 ->
  exists s, (numClasses <= s <= 52)%nat /\
            find_class n = Some (class_size s, Z.of_nat s) /\
            run (GetBlock n) w = Panicked (IndexOutOfRange (Z.of_nat s) numClasses) w.
Proof.
  intros [Hw Hm]%reachable_wf Hn.
  destruct (find_class_is_Some n) as [[c s] Hc]; [lia|].
  destruct (find_class_Some _ _ _ Hc) as (k & Hk & -> & -> & Hle & Hlt).
  assert (numClasses <= k)%nat as Hge.
  { destruct (decide (numClasses <= k)%nat) as [|Hlt']; [done|].
    assert (class_size k <= class_size 20) by (apply class_size_mono; unfold numClasses in *; lia).
    rewrite class_size_20 in *. lia. }
  exists k. repeat split; try done.
  rewrite <- (wf_classes _ Hw).
  eapply run_GetBlock_out; [done|done|]. rewrite (wf_classes _ Hw). lia.
Qed.

Lemma GetBlock_oversized_panics_witness :
  exists s, (numClasses <= s <= 52)%nat /\
            find_class (2 ^ 30 + 1) = Some (class_size s, Z.of_nat s) /\
            run (GetBlock (2 ^ 30 + 1)) NewWorld
            = Panicked (IndexOutOfRange (Z.of_nat s) numClasses) NewWorld.
Proof.
  apply (GetBlock_oversized_panics NewWorld (2 ^ 30 + 1)).
  - apply reachable_new.
  - lia.
Defined.

(** C6 as stated fails at [n = 2^62 + 1]: no error is signalled.  [c]
    goes from [2^62] to [-2^63] and then to [0], the loop [for c < n]
    never ends, and the call holds the mutex for ever. *)
Lemma GetBlock_huge_never_returns :
  (forall fuel, class_loop fuel (2 ^ 62 + 1) smallestBlockSize 0 = None) /\
  (wrap (2 ^ 62 * 2) = - 2 ^ 63 /\ wrap (- 2 ^ 63 * 2) = 0) /\
  run (GetBlock (2 ^ 62 + 1)) NewWorld = Diverge (set_mutex true NewWorld).
Proof.
  split; [|split].
  - apply find_class_None_forever. apply find_class_None. lia.
  - split; reflexivity.
  - vm_compute. reflexivity.
Qed.

(** ** The length of the view *)

(** On the new-block path the view has the length asked for. *)
Lemma GetBlock_fresh_length (w : world) (n : Z) (k : nat) (l : list slice) :
  reachable w -> 0 <= n <= 2 ^ 30 ->
  find_class n = Some (class_size k, Z.of_nat k) ->
  blocks (mgr w) !! k = Some l -> first_free (used (mgr w)) l = None ->
  exists v w', run (GetBlock n) w = Ret v w' /\ sl_len v = Z.to_nat n.
Proof.
  intros [Hw Hm]%reachable_wf Hn Hc Hl Hf.
  destruct (find_class_Some _ _ _ Hc) as (k' & _ & Hk' & _ & Hle & _).
  pose proof (class_size_pos k).
  rewrite (run_GetBlock n k l) by (try done; by eapply wf_nonempty).
  rewrite get_in_class_outcome_fresh by (try done; lia). eauto.
Qed.

(** On the reuse path the view is the whole block. *)
Lemma GetBlock_reuse_length (w : world) (n : Z) (k : nat) (l : list slice) (b : slice) :
  reachable w ->
  find_class n = Some (class_size k, Z.of_nat k) ->
  blocks (mgr w) !! k = Some l -> first_free (used (mgr w)) l = Some b ->
  exists w', run (GetBlock n) w = Ret b w' /\ Z.of_nat (sl_len b) = class_size k.
Proof.
  intros [Hw Hm]%reachable_wf Hc Hl Hf.
  rewrite (run_GetBlock n k l) by (try done; by eapply wf_nonempty).
  rewrite (get_in_class_outcome_reuse _ _ _ _ b) by done.
  exists (reuse b w). split; [done|].
  apply first_free_Some in Hf as [Hb _].
  destruct (wf_block _ Hw _ _ _ Hl Hb) as (a & _ & _ & Hlen & _).
  pose proof (class_size_pos k). lia.
Qed.

Lemma reachable_w_freed2000 : reachable w_freed2000.
Proof.
  eapply (reachable_ret (after [CallGetBlock 2000] NewWorld) (CallFreeBlock view2000)).
  - eapply (reachable_ret NewWorld (CallGetBlock 2000)); [apply reachable_new|done|].
    vm_compute. reflexivity.
  - split; simpl; [lia|]. eexists. split; [vm_compute; reflexivity|].
    apply Nat.leb_le. vm_compute. reflexivity.
  - vm_compute. reflexivity.
Qed.

(** C1, at the input where the code leaves it: [GetBlock(2000)],
    [FreeBlock], [GetBlock(2000)] again.  The second call takes the reuse
    path, which returns [m.blocks[s][i]] and not [m.blocks[s][i][0:n]]:
    the view has 2048 bytes, not the 2000 asked for. *)
Theorem GetBlock_reuse_length_is_class_size :
  reachable w_freed2000 /\
  exists v w', run (GetBlock 2000) w_freed2000 = Ret v w' /\
               sl_len v = 2048%nat /\ Z.of_nat (sl_len v) <> 2000.
Proof.
  split; [apply reachable_w_freed2000|].
  exists (mkSlice (Pool 0) 0 2048 2048), (after [CallGetBlock 2000] w_freed2000).
  split; [vm_compute; reflexivity|]. split; [reflexivity|]. simpl. lia.
Qed.

(** ** Requests of zero bytes *)

(** A [GetBlock(0)] that allocates returns an empty view, and [FreeBlock]
    on that view panics at [&b[0]], the block staying checked out. *)
Lemma GetBlock_zero_fresh (w : world) (l : list slice) :
  reachable w ->
  blocks (mgr w) !! 0%nat = Some l -> first_free (used (mgr w)) l = None ->
  exists v w', run (GetBlock 0) w = Ret v w' /\ sl_len v = 0%nat /\
               run (FreeBlock v) w' = Panicked (IndexOutOfRange 0 0) w' /\
               used (mgr w') !! (sl_arr v, sl_off v) = Some true.
Proof.
  intros Hr Hl Hf. pose proof (reachable_wf _ Hr) as [Hw Hm].
  rewrite (run_GetBlock 0 0 l) by (try done; by eapply wf_nonempty).
  rewrite get_in_class_outcome_fresh by (try done; simpl; lia).
  eexists _, _. split; [done|]. split; [done|]. split.
  - by rewrite run_FreeBlock.
  - simpl. by rewrite lookup_insert_eq.
Qed.

Lemma reachable_w_freed1000 : reachable w_freed1000.
Proof.
  eapply (reachable_ret w_taken (CallFreeBlock view1000));
    [apply reachable_w_taken| |vm_compute; reflexivity].
  eapply valid_view1000; vm_compute; reflexivity.
Qed.

(** C10, at the input where the code leaves it: [GetBlock(1000)],
    [FreeBlock], then [GetBlock(0)].  The last call takes the reuse path
    and returns the whole 1024-byte block, and [FreeBlock] on that view
    returns normally. *)
Theorem GetBlock_zero_reuse_is_releasable :
  reachable w_freed1000 /\
  exists v w' w'',
    run (GetBlock 0) w_freed1000 = Ret v w' /\ sl_len v = 1024%nat /\
    run (FreeBlock v) w' = Ret tt w''.
Proof.
  split; [apply reachable_w_freed1000|].
  exists (mkSlice (Pool 0) 0 1024 1024), (after [CallGetBlock 0] w_freed1000),
    (after [CallGetBlock 0; CallFreeBlock (mkSlice (Pool 0) 0 1024 1024)] w_freed1000).
  split; [vm_compute; reflexivity|]. split; [reflexivity|]. vm_compute. reflexivity.
Qed.

(** ** Executions *)

Lemma schedule_exec (c0 : config) (chs : list choice) (h h' : list event)
    (cfg cfg' : config) :
  exec c0 h cfg -> schedule chs h cfg = Some (h', cfg') -> exec c0 h' cfg'.
Proof.
  revert h cfg. induction chs as [|ch chs IH]; intros h cfg He Hs; simpl in Hs.
  - by injection Hs as <- <-.
  - destruct (step_fn cfg ch) as [[ev cfg1]|] eqn:Hstep; [|done].
    eapply IH; [|exact Hs]. by eapply exec_step.
Qed.

Example two_calls_history :
  fst <$> schedule two_calls [] (init 2) =
  Some [EvReturn 1 (CallGetBlock 1500) (RView (mkSlice (Pool 1) 0 1500 2048));
        EvAct 1 AUnlock; EvAct 1 (AUsedStore (Pool 1, 0%nat) true);
        EvAct 1 (AStoreBlocks 1 [mkSlice (Pool 0) 0 2048 2048; mkSlice (Pool 1) 0 2048 2048]);
        EvAct 1 ALoadBlocks; EvAct 1 (AAlloc 2048);
        EvAct 1 (AUsedLoad (Pool 0, 0%nat)); EvAct 1 ALoadBlocks; EvAct 1 ALoadBlocks;
        EvAct 1 ALock;
        EvReturn 0 (CallGetBlock 2000) (RView view2000);
        EvAct 0 AUnlock; EvAct 0 (AUsedStore (Pool 0, 0%nat) true);
        EvAct 0 (AStoreBlocks 1 [mkSlice (Pool 0) 0 2048 2048]);
        EvAct 0 ALoadBlocks; EvAct 0 (AAlloc 2048);
        EvCall 1 (CallGetBlock 1500);
        EvAct 0 ALoadBlocks; EvAct 0 ALock; EvCall 0 (CallGetBlock 2000)].
Proof. vm_compute. reflexivity. Qed.

(** ** Programs under the mutex *)

Lemma wp_bind {A B : Type} (m : prog A) (f : A -> prog B) (w : world) (g : list ptr)
    (Q : B -> world -> list ptr -> Prop) (E : world -> list ptr -> Prop) :
  wp m w g (fun a w' g' => wp (f a) w' g' Q E) E -> wp (bind m f) w g Q E.
Proof.
  revert w g. induction m as [a|e| |X e k IH]; intros w g; simpl; try done.
  intros [Hpre Hk]. split; [done|]. by apply IH.
Qed.

Lemma markless_bind {A B : Type} (m : prog A) (f : A -> prog B) :
  markless m -> (forall a, markless (f a)) -> markless (bind m f).
Proof.
  intros Hm Hf. induction m as [a|e| |X e k IH]; simpl in *; try done.
  destruct Hm as [He Hk]. split; [done|]. intros x. by apply IH.
Qed.

Lemma read_only_markless {A : Type} (p : prog A) : read_only p -> markless p.
Proof.
  induction p as [a|e| |X e k IH]; simpl; try done.
  intros [He Hk]. split; [by destruct e|]. intros x. by apply IH.
Qed.

(** A markless program under the mutex is its sequential run. *)
Lemma wp_markless {A : Type} (p : prog A) (w : world) (g : list ptr)
    (Q : A -> world -> list ptr -> Prop) (E : world -> list ptr -> Prop) :
  markless p ->
  match run p w with
  | Ret a w' => Q a w' g
  | Panicked _ w' => E w' g
  | Diverge _ => True
  end ->
  wp p w g Q E.
Proof.
  revert w. induction p as [a|e| |X e k IH]; intros w; simpl; try done.
  intros [He Hk].
  assert (enabled e w = true /\ pre e w /\ note e g = g) as (-> & Hpre & ->)
    by (by destruct e).
  intros Hrun. split; [done|]. by apply IH.
Qed.

Lemma markless_store (b : slice) (j : nat) (v : Byte.byte) : markless (store b j v).
Proof. unfold store. destruct (j <? sl_len b)%nat; [|done]. by split. Qed.

Lemma markless_zero_loop (s : Z) (i k j : nat) : markless (zero_loop s i k j).
Proof.
  revert j. induction k as [|k IH]; intros j; [done|]. cbn [zero_loop].
  apply markless_bind; [apply read_only_markless, read_only_block_at|]. intros b.
  apply markless_bind; [apply markless_store|]. intros _. apply IH.
Qed.

Lemma markless_zero_block (s : Z) (i : nat) : markless (zero_block s i).
Proof.
  apply markless_bind; [apply read_only_markless, read_only_block_at|]. intros b.
  apply markless_zero_loop.
Qed.

Lemma markless_make (c : Z) : markless (make c).
Proof. unfold make. destruct (c <? 0); [done|]. by split. Qed.

Lemma run_zero_block (s i : nat) (l : list slice) (b : slice) (w : world) :
  blocks (mgr w) !! s = Some l -> l !! i = Some b ->
  run (zero_block (Z.of_nat s) i) w
  = Ret tt (set_heap w (zero_heap b (sl_len b) 0 (heap w))).
Proof.
  intros Hl Hb. unfold zero_block.
  rewrite run_bind, (run_block_at _ _ l b) by done. cbn [then_do].
  by apply (run_zero_loop s i l b).
Qed.

(** In a world of the invariant a key that reads [false] is absent. *)
Lemma not_used_absent (w : world) (b : slice) :
  wf w -> is_used (used (mgr w)) b = false ->
  used (mgr w) !! (sl_arr b, sl_off b) = None.
Proof.
  intros Hw Hu. unfold is_used in Hu.
  destruct (used (mgr w) !! (sl_arr b, sl_off b)) as [v|] eqn:E; [|done].
  destruct (wf_used _ Hw _ _ E) as [-> _]. done.
Qed.

(** The scan under the mutex: it marks the first free block, which was
    not in the checked-out set, and nothing else. *)
Lemma wp_scan (s : nat) (l : list slice) (k i : nat) (w : world) (g : list ptr)
    (Q : option slice -> world -> list ptr -> Prop) (E : world -> list ptr -> Prop) :
  wf w -> blocks (mgr w) !! s = Some l -> length l = (i + k)%nat ->
  match first_free (used (mgr w)) (drop i l) with
  | None => Q None w g
  | Some b => Q (Some b) (reuse b w) ((sl_arr b, sl_off b) :: g)
  end ->
  wp (scan (Z.of_nat s) k i) w g Q E.
Proof.
  intros Hw Hl. revert i. induction k as [|k IH]; intros i Hlen HQ.
  - rewrite drop_ge in HQ by lia. done.
  - destruct (lookup_lt_is_Some_2 l i) as [b Hb]; [lia|].
    assert (nonempty b) as Hb0.
    { eapply block_ok_nonempty, wf_block; [done|done|].
      apply list_elem_of_lookup. eauto. }
    rewrite (drop_S _ _ _ Hb) in HQ. cbn [first_free] in HQ. cbn [scan].
    apply wp_bind, wp_markless; [apply read_only_markless, read_only_block_at|].
    rewrite (run_block_at _ _ l b) by done.
    apply wp_bind, wp_markless; [apply read_only_markless, read_only_addr0|].
    rewrite run_addr0 by done.
    apply wp_bind, wp_markless; [apply read_only_markless, read_only_used_get|].
    unfold used_get. rewrite run_bind, run_act by done.
    cbn [then_do fst snd prim_sem run]. fold (is_used (used (mgr w)) b).
    destruct (is_used (used (mgr w)) b) eqn:Hu; cbn [negb].
    + apply IH; [lia|done].
    + apply wp_bind, wp_markless; [apply read_only_markless, read_only_block_at|].
      rewrite (run_block_at _ _ l b) by done.
      apply wp_bind, wp_markless; [apply read_only_markless, read_only_addr0|].
      rewrite run_addr0 by done.
      cbn [bind act wp pre note prim_sem fst snd].
      split; [split; [by apply not_used_absent|done]|].
      apply wp_bind, wp_markless; [apply markless_zero_block|].
      rewrite (run_zero_block s i l b) by done.
      apply wp_bind, wp_markless; [apply read_only_markless, read_only_block_at|].
      rewrite (run_block_at _ _ l b) by done.
      exact HQ.
Qed.

(** The body of [GetBlock] under the mutex: every key it marks was not in
    the checked-out set, the view it returns is on a key it marked, and
    the invariant holds when it ends. *)
Lemma wp_GetBlock_body (n : Z) (w : world) :
  wf w ->
  wp (GetBlock_body n) w []
     (fun v w' g' => wf w' /\ (sl_arr v, sl_off v) ∈ g')
     (fun w' _ => wf w').
Proof.
  intros Hw. unfold GetBlock_body.
  destruct (find_class n) as [[c s]|] eqn:Hc; [|done].
  destruct (find_class_Some _ _ _ Hc) as (k & Hk & -> & -> & _).
  pose proof (class_size_pos k) as Hpos.
  unfold get_in_class.
  apply wp_bind, wp_markless; [apply read_only_markless, read_only_blocks_at|].
  destruct (blocks (mgr w) !! k) as [l|] eqn:Hl.
  2:{ rewrite run_blocks_at_None; [done|]. apply lookup_ge_None in Hl. lia. }
  rewrite (run_blocks_at_Some _ l) by done.
  apply wp_bind, (wp_scan k l); [done|done|lia|]. rewrite drop_0.
  destruct (first_free (used (mgr w)) l) as [b|] eqn:Hf.
  - apply first_free_Some in Hf as [Hb _]. simpl. split.
    + by eapply wf_reuse.
    + apply elem_of_cons. by left.
  - cbn [wp].
    apply wp_bind, wp_markless; [apply markless_make|].
    rewrite run_make by lia.
    apply wp_bind, wp_markless; [apply read_only_markless, read_only_blocks_at|].
    rewrite (run_blocks_at_Some _ l) by done.
    rewrite Nat2Z.id.
    cbn [bind act wp pre note prim_sem fst snd]. split; [done|].
    apply wp_bind, wp_markless; [apply read_only_markless, read_only_addr0|].
    rewrite run_addr0 by (unfold nonempty, fresh_block; simpl; lia).
    cbn [bind act wp pre note prim_sem fst snd fresh_block sl_arr sl_off].
    assert (wf (grow k (Z.to_nat (class_size k)) l w)) as Hw' by (by apply wf_grow).
    split.
    + split; [|done]. simpl.
      destruct (used (mgr w) !! (Pool (length (heap w)), 0%nat)) as [v|] eqn:E; [|done].
      destruct (wf_used _ Hw _ _ E) as (_ & s' & l' & b' & Hl' & Hb' & Heq).
      destruct (wf_block _ Hw _ _ _ Hl' Hb') as (a & Ha & _ & _ & _ & Hlk).
      injection Heq as Heq _. rewrite <- Heq in Ha. injection Ha as <-.
      apply lookup_lt_Some in Hlk. rewrite length_fmap in Hlk. lia.
    + unfold reslice0. cbn [sl_cap sl_arr sl_off].
      destruct (_ || _); simpl; [exact Hw'|]. split; [exact Hw'|].
      apply elem_of_cons. by left.
Qed.

Lemma wp_FreeBlock_body (b : slice) (w : world) (g : list ptr) :
  wf w ->
  wp (FreeBlock_body b) w g (fun _ w' g' => wf w' /\ g' = g) (fun w' _ => wf w').
Proof.
  intros Hw. unfold FreeBlock_body, addr0.
  destruct (sl_len b =? 0)%nat; [done|].
  cbn [bind act wp pre note prim_sem fst snd]. split; [done|].
  destruct (used (mgr w) !! (sl_arr b, sl_off b)); [|done].
  cbn [bind act wp pre note prim_sem fst snd]. split; [done|].
  split; [|done]. by apply wf_set_used_delete.
Qed.

Lemma wf_set_mutex (b : bool) (w : world) : wf w -> wf (set_mutex b w).
Proof. intros Hw. eapply wf_shape; [| | |exact Hw]; done. Qed.

Lemma pre_not_unlock {X : Type} (e : prim X) (w : world) : pre e w -> is_unlock e = false.
Proof. by destruct e. Qed.

(** A body of the [wp] kind under [defer m.mutex.Unlock()] is a critical
    section. *)
Lemma crit_of_wp {A : Type} (body : prog A) (wrap : A -> prog result)
    (w : world) (g : list ptr)
    (Q : A -> world -> list ptr -> Prop) (E : world -> list ptr -> Prop) :
  (forall a w' g', Q a w' g' -> wf w' /\ calm g' (wrap a)) ->
  (forall w' g', E w' g' -> wf w') ->
  wp body w g Q E ->
  crit (bind (defer (act Unlock) body) wrap) w g.
Proof.
  intros HQ HE. revert w g.
  induction body as [a|e| |X e k IH]; intros w g Hwp; simpl in *.
  - destruct (HQ _ _ _ Hwp) as [Hw Hc]. split; [by apply wf_set_mutex|done].
  - split; [|done]. by apply wf_set_mutex, (HE _ g).
  - done.
  - destruct Hwp as [Hpre Hk]. rewrite (pre_not_unlock e w Hpre).
    split; [done|]. by apply IH.
Qed.

Lemma calm_bind_read_only {A : Type} (m : prog A) (f : A -> prog result) (g : list ptr) :
  read_only m -> (forall a, calm g (f a)) -> calm g (bind m f).
Proof.
  intros Hm Hf. induction m as [a|e| |X e k IH]; simpl in *; try done.
  destruct Hm as [He Hk]. split; [by destruct e|]. intros x. by apply IH.
Qed.

Lemma calm_quiet (g : list ptr) (p : prog result) : calm g p -> quiet g p.
Proof.
  destruct p as [r|e| |X e k]; simpl; try done.
  intros [He Hk]. by destruct e.
Qed.

(** Every call starts as a goroutine outside the critical section. *)
Lemma quiet_call_prog (c : call) : quiet [] (call_prog c).
Proof.
  destruct c as [n|b| |b j v]; cbn [call_prog].
  - unfold GetBlock, with_lock. cbn [bind quiet is_lock]. split; [done|].
    intros w Hw Hm.
    apply (crit_of_wp _ _ _ _ (fun v w' g' => wf w' /\ (sl_arr v, sl_off v) ∈ g')
             (fun w' _ => wf w')); [done|done|].
    apply wp_GetBlock_body. by apply (wf_set_mutex true).
  - unfold FreeBlock, with_lock. cbn [bind quiet is_lock]. split; [done|].
    intros w Hw Hm.
    apply (crit_of_wp _ _ _ _ (fun _ w' g' => wf w' /\ g' = [])
             (fun w' _ => wf w')); [by intros a w' g' [? _]|done|].
    apply wp_FreeBlock_body. by apply (wf_set_mutex true).
  - apply calm_quiet, calm_bind_read_only; [apply read_only_TotalAllocations|done].
  - apply calm_quiet. unfold store. destruct (j <? sl_len b)%nat; [|done]. by split.
Qed.

Lemma same_shape_prim {X : Type} (e : prim X) (w1 w2 : world) :
  same_shape w1 w2 ->
  (prim_sem e w1).1 = (prim_sem e w2).1 /\
  same_shape (prim_sem e w1).2 (prim_sem e w2).2.
Proof.
  intros [Hm Hh]. unfold same_shape.
  destruct e; cbn [prim_sem fst snd mgr heap set_heap set_mgr]; rewrite ?Hm; try done.
  - assert (length (heap w1) = length (heap w2)) as ->.
    { by rewrite <- (length_fmap length (heap w1)), Hh, length_fmap. }
    split; [done|]. split; [done|]. by rewrite !fmap_app, Hh.
  - split; [done|]. split; [done|]. by rewrite !shape_poke.
Qed.

Lemma same_shape_wf (w1 w2 : world) : same_shape w1 w2 -> wf w1 -> wf w2.
Proof. intros [Hm Hh]. apply wf_shape; by rewrite ?Hm. Qed.

Lemma same_shape_pre {X : Type} (e : prim X) (w1 w2 : world) :
  same_shape w1 w2 -> pre e w1 -> pre e w2.
Proof. intros [Hm _]. destruct e; simpl; by rewrite ?Hm. Qed.

(** What is left of a critical section does not see the bytes. *)
Lemma crit_shape (p : prog result) (w1 w2 : world) (g : list ptr) :
  same_shape w1 w2 -> crit p w1 g -> crit p w2 g.
Proof.
  revert w1 w2 g. induction p as [a|e| |X e k IH]; intros w1 w2 g Hs; simpl; try done.
  destruct (same_shape_prim e w1 w2 Hs) as [Hx Hs'].
  destruct (is_unlock e).
  - intros [Hw Hc]. rewrite <- Hx. split; [by eapply same_shape_wf|done].
  - intros [Hpre Hk]. rewrite <- Hx. split; [by eapply same_shape_pre|].
    by eapply IH.
Qed.

Lemma harmless_same_shape {X : Type} (e : prim X) (w : world) :
  harmless e = true -> same_shape w (prim_sem e w).2.
Proof.
  destruct e; try discriminate; intros _;
    cbn [prim_sem fst snd mgr heap set_heap set_mgr]; try done.
  split; [done|]. cbn [heap set_heap]. by rewrite shape_poke.
Qed.

(** ** The invariant of an execution *)

Lemma holds_act {X : Type} (t t' : nat) (e : prim X) (h : list event) :
  holds t' (EvAct t (action_of e) :: h) =
  if decide (t = t') then
    (if is_lock e then true else if is_unlock e then false else holds t' h)
  else holds t' h.
Proof. destruct e; simpl; by destruct (decide (t = t')). Qed.

Lemma marks_act {X : Type} (t t' : nat) (e : prim X) (h : list event) :
  marks_in_call t' (EvAct t (action_of e) :: h) =
  if decide (t = t') then note e (marks_in_call t' h) else marks_in_call t' h.
Proof. destruct e; simpl; by destruct (decide (t = t')). Qed.

Lemma marked_act {X : Type} (t : nat) (e : prim X) (h : list event) (w : world) :
  (forall p, marked p h = true <-> is_Some (used (mgr w) !! p)) ->
  forall p, marked p (EvAct t (action_of e) :: h) = true
            <-> is_Some (used (mgr (prim_sem e w).2) !! p).
Proof.
  intros H p. destruct e; simpl; try apply H.
  - destruct (decide (p0 = p)) as [->|Hne].
    + rewrite lookup_insert_eq. split; [by eexists|done].
    + rewrite lookup_insert_ne by done. apply H.
  - destruct (decide (p0 = p)) as [->|Hne].
    + rewrite lookup_delete_eq. split; [done|by intros [? ?]].
    + rewrite lookup_delete_ne by done. apply H.
Qed.

Lemma mutex_act {X : Type} (e : prim X) (w : world) :
  mutex (mgr (prim_sem e w).2) =
  if is_lock e then true else if is_unlock e then false else mutex (mgr w).
Proof. by destruct e. Qed.

Lemma is_lock_enabled {X : Type} (e : prim X) (w : world) :
  is_lock e = true -> enabled e w = true -> mutex (mgr w) = false.
Proof. destruct e; try discriminate. simpl. by destruct (mutex (mgr w)). Qed.

Lemma is_unlock_facts {X : Type} (e : prim X) (g : list ptr) :
  is_unlock e = true -> is_lock e = false /\ note e g = g.
Proof. by destruct e. Qed.

Lemma is_lock_facts {X : Type} (e : prim X) (g : list ptr) :
  is_lock e = true -> is_unlock e = false /\ note e g = g.
Proof. by destruct e. Qed.

Lemma pre_not_lock {X : Type} (e : prim X) (w : world) : pre e w -> is_lock e = false.
Proof. by destruct e. Qed.

Lemma harmless_facts {X : Type} (e : prim X) (g : list ptr) :
  harmless e = true -> is_lock e = false /\ is_unlock e = false /\ note e g = g.
Proof. by destruct e. Qed.

Lemma inv_init (n : nat) : inv [] (init n).
Proof.
  split; simpl; try done.
  - intros _. apply wf_NewWorld.
  - intros t c p H. by apply lookup_replicate_1 in H as [? _].
  - intros p. rewrite lookup_empty. split; [done|by intros [? ?]].
Qed.

Lemma inv_start (h : list event) (cfg : config) (t : nat) (c : call) :
  inv h cfg -> threads cfg !! t = Some Idle ->
  inv (EvCall t c :: h)
      (mkConfig (cw cfg) (<[t := Running c (call_prog c)]> (threads cfg))).
Proof.
  intros [H1 H2 H3 H4 H5 H6] Ht. pose proof (lookup_lt_Some _ _ _ Ht) as Hlt.
  split; cbn [cw threads holds marked]; try done.
  - intros t' Ht'. destruct (decide (t = t')) as [<-|Hne].
    + by rewrite list_lookup_insert_eq in Ht'.
    + rewrite list_lookup_insert_ne in Ht' by done. by apply H4.
  - intros t' c' p' Ht'. cbn [marks_in_call].
    destruct (decide (t = t')) as [<-|Hne].
    + rewrite list_lookup_insert_eq in Ht' by done. injection Ht' as <- <-.
      rewrite (H4 _ Ht). apply quiet_call_prog.
    + rewrite list_lookup_insert_ne in Ht' by done. exact (H5 _ _ _ Ht').
Qed.

Lemma inv_end (h : list event) (cfg : config) (t : nat) (c : call)
    (p : prog result) (ev : event) :
  inv h cfg -> threads cfg !! t = Some (Running c p) ->
  (forall w g, ~ crit p w g) ->
  (forall t', holds t' (ev :: h) = holds t' h) ->
  (forall t', marks_in_call t' (ev :: h) = marks_in_call t' h) ->
  (forall q, marked q (ev :: h) = marked q h) ->
  inv (ev :: h) (mkConfig (cw cfg) (<[t := Idle]> (threads cfg))).
Proof.
  intros [H1 H2 H3 H4 H5 H6] Ht Hp Hh Hm Hq.
  pose proof (lookup_lt_Some _ _ _ Ht) as Hlt.
  split; cbn [cw threads]; try done.
  - intros t'. rewrite Hh. apply H2.
  - intros t1 t2. rewrite !Hh. apply H3.
  - intros t' Ht'. rewrite Hh. destruct (decide (t = t')) as [<-|Hne].
    + specialize (H5 _ _ _ Ht). destruct (holds t h); [|done]. by apply Hp in H5.
    + rewrite list_lookup_insert_ne in Ht' by done. by apply H4.
  - intros t' c' p' Ht'. rewrite Hh, Hm. destruct (decide (t = t')) as [<-|Hne].
    + by rewrite list_lookup_insert_eq in Ht'.
    + rewrite list_lookup_insert_ne in Ht' by done. exact (H5 _ _ _ Ht').
  - intros q. rewrite Hq. apply H6.
Qed.

Lemma inv_act {X : Type} (h : list event) (cfg : config) (t : nat) (c : call)
    (e : prim X) (k : X -> prog result) :
  inv h cfg -> threads cfg !! t = Some (Running c (Act e k)) ->
  enabled e (cw cfg) = true ->
  inv (EvAct t (action_of e) :: h)
      (mkConfig (prim_sem e (cw cfg)).2
                (<[t := Running c (k (prim_sem e (cw cfg)).1)]> (threads cfg))).
Proof.
  intros [H1 H2 H3 H4 H5 H6] Ht Hen.
  pose proof (lookup_lt_Some _ _ _ Ht) as Hlt.
  pose proof (H5 _ _ _ Ht) as Hp.
  assert (forall t' st, <[t := Running c (k (prim_sem e (cw cfg)).1)]> (threads cfg) !! t'
                        = Some st ->
            (t = t' /\ st = Running c (k (prim_sem e (cw cfg)).1)) \/
            (t <> t' /\ threads cfg !! t' = Some st)) as Hlook.
  { intros t' st Hst. destruct (decide (t = t')) as [<-|Hne].
    - rewrite list_lookup_insert_eq in Hst by done. left. by injection Hst as <-.
    - rewrite list_lookup_insert_ne in Hst by done. by right. }
  destruct (holds t h) eqn:Hh.
  - (* inside the critical section *)
    cbn [crit] in Hp. destruct (is_unlock e) eqn:Hu.
    + (* Unlock *)
      destruct Hp as [Hw Hc].
      destruct (is_unlock_facts e (marks_in_call t h) Hu) as [Hl Hn].
      assert (forall t', holds t' (EvAct t (action_of e) :: h) = false) as Hnone.
      { intros t'. rewrite holds_act, Hl, Hu. destruct (decide (t = t')) as [|Hne]; [done|].
        destruct (holds t' h) eqn:Hh'; [|done]. by destruct (Hne (H3 _ _ Hh Hh')). }
      split; cbn [cw threads].
      * done.
      * intros t'. by rewrite Hnone.
      * intros t1 t2. by rewrite Hnone.
      * intros t' _. apply Hnone.
      * intros t' c' p' Ht'. rewrite Hnone, marks_act.
        destruct (Hlook _ _ Ht') as [[<- [= -> ->]]|[Hne Hold]].
        -- rewrite decide_True by done. rewrite Hn. by apply calm_quiet.
        -- rewrite decide_False by done. specialize (H5 _ _ _ Hold).
           destruct (holds t' h) eqn:Hh'; [|done]. by destruct (Hne (H3 _ _ Hh Hh')).
      * by apply marked_act.
    + (* an action of the critical section *)
      destruct Hp as [Hpre Hk]. pose proof (pre_not_lock e _ Hpre) as Hl.
      assert (forall t', holds t' (EvAct t (action_of e) :: h) = holds t' h) as Hsame.
      { intros t'. rewrite holds_act, Hl, Hu. by destruct (decide (t = t')). }
      split; cbn [cw threads].
      * rewrite mutex_act, Hl, Hu, (H2 _ Hh). done.
      * intros t' Ht'. rewrite mutex_act, Hl, Hu. apply (H2 t). done.
      * intros t1 t2. rewrite !Hsame. apply H3.
      * intros t' Ht'. rewrite Hsame.
        destruct (Hlook _ _ Ht') as [[<- [=]]|[Hne Hold]]. by apply H4.
      * intros t' c' p' Ht'. rewrite Hsame, marks_act.
        destruct (Hlook _ _ Ht') as [[<- [= -> ->]]|[Hne Hold]].
        -- rewrite decide_True by done. by rewrite Hh.
        -- rewrite decide_False by done. specialize (H5 _ _ _ Hold).
           destruct (holds t' h) eqn:Hh'; [|done]. by destruct (Hne (H3 _ _ Hh Hh')).
      * by apply marked_act.
  - (* outside the critical section *)
    cbn [quiet] in Hp. destruct (is_lock e) eqn:Hl.
    + (* Lock *)
      destruct Hp as [Hg Hk].
      destruct (is_lock_facts e (marks_in_call t h) Hl) as [Hu Hn].
      pose proof (is_lock_enabled e _ Hl Hen) as Hm.
      assert (forall t', holds t' h = false) as Hfree.
      { intros t'. destruct (holds t' h) eqn:Hh'; [|done].
        rewrite (H2 _ Hh') in Hm. done. }
      assert (forall t', holds t' (EvAct t (action_of e) :: h)
                         = if decide (t = t') then true else false) as Hnew.
      { intros t'. rewrite holds_act, Hl, Hfree. done. }
      split; cbn [cw threads].
      * by rewrite mutex_act, Hl.
      * intros t' _. by rewrite mutex_act, Hl.
      * intros t1 t2. rewrite !Hnew.
        destruct (decide (t = t1)), (decide (t = t2)); congruence.
      * intros t' Ht'. rewrite Hnew.
        destruct (Hlook _ _ Ht') as [[<- [=]]|[Hne Hold]]. by rewrite decide_False.
      * intros t' c' p' Ht'. rewrite Hnew, marks_act.
        destruct (Hlook _ _ Ht') as [[<- [= -> ->]]|[Hne Hold]].
        -- rewrite !decide_True by done. rewrite Hn, Hg. apply Hk; [by apply H1|done].
        -- rewrite !decide_False by done. specialize (H5 _ _ _ Hold).
           by rewrite Hfree in H5.
      * by apply marked_act.
    + (* a load or a caller's write *)
      cbn [calm] in Hp. destruct Hp as [Hharm Hk].
      destruct (harmless_facts e (marks_in_call t h) Hharm) as (_ & Hu & Hn).
      pose proof (harmless_same_shape e (cw cfg) Hharm) as Hs.
      assert (forall t', holds t' (EvAct t (action_of e) :: h) = holds t' h) as Hsame.
      { intros t'. rewrite holds_act, Hl, Hu. by destruct (decide (t = t')). }
      split; cbn [cw threads].
      * rewrite mutex_act, Hl, Hu. intros Hm. by eapply same_shape_wf, H1.
      * intros t' Ht'. rewrite mutex_act, Hl, Hu. rewrite Hsame in Ht'. by apply (H2 t').
      * intros t1 t2. rewrite !Hsame. apply H3.
      * intros t' Ht'. rewrite Hsame.
        destruct (Hlook _ _ Ht') as [[<- [=]]|[Hne Hold]]. by apply H4.
      * intros t' c' p' Ht'. rewrite Hsame, marks_act.
        destruct (Hlook _ _ Ht') as [[<- [= -> ->]]|[Hne Hold]].
        -- rewrite decide_True by done. rewrite Hh, Hn. by apply calm_quiet.
        -- rewrite decide_False by done. specialize (H5 _ _ _ Hold).
           destruct (holds t' h); [by eapply crit_shape|done].
      * by apply marked_act.
Qed.

(** Every step keeps the invariant. *)
Lemma inv_step (h : list event) (cfg : config) (ch : choice) (ev : event) (cfg' : config) :
  inv h cfg -> step_fn cfg ch = Some (ev, cfg') -> inv (ev :: h) cfg'.
Proof.
  intros Hinv Hstep. destruct ch as [t c|t]; simpl in Hstep.
  - destruct (threads cfg !! t) as [[|c' p']|] eqn:Ht; try done.
    injection Hstep as <- <-. by apply inv_start.
  - destruct (threads cfg !! t) as [[|c p]|] eqn:Ht; try done.
    destruct p as [r|e| |X e k]; simpl in Hstep.
    + injection Hstep as <- <-.
      eapply inv_end; [exact Hinv|exact Ht|by intros w g Hc|done|done|done].
    + injection Hstep as <- <-.
      eapply inv_end; [exact Hinv|exact Ht|by intros w g Hc|done|done|done].
    + done.
    + destruct (enabled e (cw cfg)) eqn:Hen; [|done].
      injection Hstep as <- <-. by apply inv_act.
Qed.

Lemma exec_inv (n : nat) (h : list event) (cfg : config) :
  exec (init n) h cfg -> inv h cfg.
Proof.
  induction 1 as [|h cfg ch ev cfg' _ IH Hstep]; [apply inv_init|].
  by eapply inv_step.
Qed.

(** ** No block is handed out twice *)

Lemma exec_split (c0 : config) (h2 : list event) (ev : event) (h1 : list event)
    (cfg : config) :
  exec c0 (h2 ++ ev :: h1) cfg ->
  exists cfg1 ch cfg1', exec c0 h1 cfg1 /\ step_fn cfg1 ch = Some (ev, cfg1').
Proof.
  revert cfg. induction h2 as [|ev2 h2 IH]; intros cfg He; simpl in He.
  - inversion He; subst. eauto.
  - inversion He; subst. eauto.
Qed.

Lemma step_act_inv (cfg : config) (ch : choice) (t : nat) (a : action) (cfg' : config) :
  step_fn cfg ch = Some (EvAct t a, cfg') ->
  exists c (X : Type) (e : prim X) (k : X -> prog result),
    threads cfg !! t = Some (Running c (Act e k)) /\ a = action_of e.
Proof.
  destruct ch as [t0 c|t0]; simpl.
  - by destruct (threads cfg !! t0) as [[|c' p']|].
  - destruct (threads cfg !! t0) as [[|c p]|] eqn:Ht; try done.
    destruct p as [r|e| |X e k]; simpl; try done.
    destruct (enabled e (cw cfg)); [|done]. intros [= <- <- _]. eauto 10.
Qed.

Lemma step_return_inv (cfg : config) (ch : choice) (t : nat) (c : call) (r : result)
    (cfg' : config) :
  step_fn cfg ch = Some (EvReturn t c r, cfg') ->
  threads cfg !! t = Some (Running c (Done r)).
Proof.
  destruct ch as [t0 c0|t0]; simpl.
  - by destruct (threads cfg !! t0) as [[|c' p']|].
  - destruct (threads cfg !! t0) as [[|c1 p]|] eqn:Ht; try done.
    destruct p as [r1|e| |X e k]; simpl; try done.
    + by intros [= <- <- <- _].
    + by destruct (enabled e (cw cfg)).
Qed.

Lemma action_of_store {X : Type} (e : prim X) (p : ptr) (v : bool) :
  action_of e = AUsedStore p v ->
  is_lock e = false /\ is_unlock e = false /\ harmless e = false /\
  forall w, pre e w -> used (mgr w) !! p = None /\ v = true.
Proof. destruct e; simpl; try discriminate. by intros [= -> ->]. Qed.

(** After a mark of [p] the key stays marked until a delete of [p]. *)
Lemma marked_since (p : ptr) (h2 : list event) (t : nat) (v : bool) (h1 : list event) :
  marked p (h2 ++ EvAct t (AUsedStore p v) :: h1) = false ->
  exists t', EvAct t' (AUsedDelete p) ∈ h2.
Proof.
  induction h2 as [|ev h2 IH]; simpl.
  - by rewrite decide_True.
  - intros Hm.
    assert (marked p (h2 ++ EvAct t (AUsedStore p v) :: h1) = false ->
            exists t', EvAct t' (AUsedDelete p) ∈ ev :: h2) as Hrec.
    { intros H. destruct (IH H) as [t' Ht']. exists t'. apply elem_of_cons. by right. }
    destruct ev as [t0 c|t0 a|t0 c r|t0 c e]; try by apply Hrec.
    destruct a; try by apply Hrec.
    + destruct (decide (p0 = p)); [done|by apply Hrec].
    + destruct (decide (p0 = p)) as [->|]; [|by apply Hrec].
      exists t0. apply elem_of_cons. by left.
Qed.

(** C5. In every execution of any number of goroutines calling the
    manager: a goroutine that marks a key ([m.used[p] = true]) holds the
    mutex, alone, and the key was not in the checked-out set; between two
    marks of one key lies a delete of that key, so no two [GetBlock]
    calls take the same free block; and every view a call returns is on a
    key that this call marked. *)
Theorem no_double_allocation (n : nat) (h : list event) (cfg : config) :
  exec (init n) h cfg ->
  (forall h2 t p v h1,
     h = h2 ++ EvAct t (AUsedStore p v) :: h1 ->
     v = true /\ marked p h1 = false /\
     holds t h1 = true /\ (forall t', holds t' h1 = true -> t' = t)) /\
  (forall h3 t2 v2 h2 t1 v1 p h1,
     h = h3 ++ EvAct t2 (AUsedStore p v2) :: h2 ++ EvAct t1 (AUsedStore p v1) :: h1 ->
     exists t', EvAct t' (AUsedDelete p) ∈ h2) /\
  (forall h2 t c v h1,
     h = h2 ++ EvReturn t c (RView v) :: h1 ->
     (sl_arr v, sl_off v) ∈ marks_in_call t h1 /\ holds t h1 = false).
Proof.
  intros He.
  assert (forall h2 t p v h1,
            h = h2 ++ EvAct t (AUsedStore p v) :: h1 ->
            v = true /\ marked p h1 = false /\
            holds t h1 = true /\ (forall t', holds t' h1 = true -> t' = t)) as Hmark.
  { intros h2 t p v h1 ->.
    destruct (exec_split _ _ _ _ _ He) as (cfg1 & ch & cfg1' & He1 & Hstep).
    pose proof (exec_inv _ _ _ He1) as [H1 H2 H3 H4 H5 H6].
    destruct (step_act_inv _ _ _ _ _ Hstep) as (c & X & e & k & Ht & Ha).
    symmetry in Ha. destruct (action_of_store e p v Ha) as (Hl & Hu & Hharm & Hpre).
    specialize (H5 _ _ _ Ht). destruct (holds t h1) eqn:Hh.
    - cbn [crit] in H5. rewrite Hu in H5. destruct H5 as [Hp _].
      destruct (Hpre _ Hp) as [Hnone ->]. repeat split; try done.
      + destruct (marked p h1) eqn:Hm; [|done].
        apply H6 in Hm as [? Hm]. congruence.
      + intros t' Ht'. by apply (H3 t' t).
    - cbn [quiet calm] in H5. rewrite Hl in H5. destruct H5 as [H5 _]. congruence. }
  split; [exact Hmark|]. split.
  - intros h3 t2 v2 h2 t1 v1 p h1 Hh.
    destruct (Hmark _ _ _ _ _ Hh) as (_ & Hm & _). by eapply marked_since.
  - intros h2 t c v h1 ->.
    destruct (exec_split _ _ _ _ _ He) as (cfg1 & ch & cfg1' & He1 & Hstep).
    pose proof (exec_inv _ _ _ He1) as [H1 H2 H3 H4 H5 H6].
    apply step_return_inv in Hstep. specialize (H5 _ _ _ Hstep).
    destruct (holds t h1); [done|]. done.
Qed.

Lemma no_double_allocation_witness :
  exists h cfg,
    schedule two_calls [] (init 2) = Some (h, cfg) /\
    (forall h2 t p v h1,
       h = h2 ++ EvAct t (AUsedStore p v) :: h1 ->
       v = true /\ marked p h1 = false /\
       holds t h1 = true /\ (forall t', holds t' h1 = true -> t' = t)) /\
    (forall h3 t2 v2 h2 t1 v1 p h1,
       h = h3 ++ EvAct t2 (AUsedStore p v2) :: h2 ++ EvAct t1 (AUsedStore p v1) :: h1 ->
       exists t', EvAct t' (AUsedDelete p) ∈ h2) /\
    (forall h2 t c v h1,
       h = h2 ++ EvReturn t c (RView v) :: h1 ->
       (sl_arr v, sl_off v) ∈ marks_in_call t h1 /\ holds t h1 = false).
Proof.
  eexists _, _. split.
  - vm_compute. reflexivity.
  - eapply (no_double_allocation 2).
    eapply (schedule_exec (init 2) two_calls []); [apply exec_nil|].
    vm_compute. reflexivity.
Defined.

(** C7, where the code leaves it.  Every action of [TotalAllocations] is a
    load of [m.blocks] or [m.used], so it changes nothing, in any world;
    but [Lock] is not among its actions: it runs while another goroutine
    holds the mutex, here from its call to its return inside the critical
    section of a [GetBlock], where it reports a block that is allocated
    and neither in use nor free. *)
Theorem TotalAllocations_takes_no_lock :
  read_only TotalAllocations /\
  (forall w, (exists t, run TotalAllocations w = Ret t w) \/
             (exists e, run TotalAllocations w = Panicked e w)) /\
  run (GetBlock 2000) (set_mutex true NewWorld) = Diverge (set_mutex true NewWorld) /\
  exists h cfg,
    schedule report_race [] (init 2) = Some (h, cfg) /\
    head h = Some (EvReturn 1 CallTotalAllocations
                     (RText ("Total memory used/allocated: 0/2048" +:+ newline))) /\
    holds 0 h = true /\ holds 1 h = false /\
    mutex (mgr (cw cfg)) = true /\
    threads cfg !! 1%nat = Some Idle.
Proof.
  split; [apply read_only_TotalAllocations|]. split.
  - intros w. apply run_read_only, read_only_TotalAllocations.
  - split; [vm_compute; reflexivity|].
    eexists _, _. split; [vm_compute; reflexivity|].
    repeat split; vm_compute; reflexivity.
Qed.


(** * Further properties of the code *)

(** ** The class of a request *)

(** The class search gives class [k] to a request that fits class [k]
    and no smaller class. *)
Lemma find_class_fits (n : Z) (k : nat) :
  (k <= 52)%nat -> n <= class_size k ->
  ((0 < k)%nat -> class_size (k - 1) < n) ->
  find_class n = Some (class_size k, Z.of_nat k).
Proof.
  intros Hk Hle Hlt.
  assert (class_size k <= class_size 52) as Hmax by (by apply class_size_mono).
  rewrite class_size_52 in Hmax.
  destruct (find_class_is_Some n) as [[c s] Hc]; [lia|].
  destruct (find_class_Some _ _ _ Hc) as (k' & Hk' & -> & -> & Hle' & Hlt').
  destruct (decide (k' = k)) as [->|Hne]; [done|].
  destruct (decide (k < k')%nat) as [Hlt1|Hge].
  - specialize (Hlt' k Hlt1). lia.
  - assert (class_size k' <= class_size (k - 1)) by (apply class_size_mono; lia).
    specialize (Hlt ltac:(lia)). lia.
Qed.

(** X1. The class search gives class [k] exactly to the requests that fit
    class [k] and no smaller class: a request of exactly
    [smallestBlockSize * 2^k] bytes stays in class [k], one byte more
    goes to class [k + 1], and every request of at most
    [smallestBlockSize] bytes (zero and negative ones too) gets class 0. *)
Theorem find_class_characterised (n : Z) (k : nat) :
  (k <= 52)%nat ->
  find_class n = Some (class_size k, Z.of_nat k) <->
  n <= class_size k /\ ((0 < k)%nat -> class_size (k - 1) < n).
Proof.
  intros Hk. split.
  - intros H. destruct (find_class_Some _ _ _ H) as (k' & _ & _ & Hs & Hle & Hlt).
    assert (k' = k) as -> by lia. split; [done|]. intros H0. apply Hlt. lia.
  - intros [Hle Hlt]. by apply find_class_fits.
Qed.

Lemma find_class_characterised_witness :
  find_class 2048 = Some (class_size 1, 1) /\
  find_class 2049 = Some (class_size 2, 2) /\
  find_class (-5) = Some (class_size 0, 0).
Proof.
  split; [|split].
  - apply (find_class_characterised 2048 1); [lia|]. split; [reflexivity|]. intros _. reflexivity.
  - apply (find_class_characterised 2049 2); [lia|]. split; [vm_compute; discriminate|].
    intros _. reflexivity.
  - apply (find_class_characterised (-5) 0); [lia|]. split; [vm_compute; discriminate|]. lia.
Defined.

(** X2. A request of more than [smallestBlockSize] bytes gets a class of
    less than twice its size: [n <= c < 2 * n]. *)
Theorem find_class_less_than_double (n c s : Z) :
  smallestBlockSize < n -> find_class n = Some (c, s) -> n <= c < 2 * n.
Proof.
  intros Hn H. destruct (find_class_Some _ _ _ H) as (k & _ & -> & _ & Hle & Hlt).
  split; [done|]. destruct k as [|k].
  - change (class_size 0) with smallestBlockSize in *. lia.
  - rewrite class_size_S. specialize (Hlt k ltac:(lia)). lia.
Qed.

Lemma find_class_less_than_double_witness : 2000 <= 2048 < 2 * 2000.
Proof.
  apply (find_class_less_than_double 2000 2048 1); [reflexivity|reflexivity].
Defined.

(** ** The view and the frame of [GetBlock] *)

(** A [GetBlock] that returns took one of its two paths: it reused the
    first free block of the class, or it allocated one. *)
Lemma GetBlock_Ret_cases (w : world) (n : Z) (v : slice) (w' : world) :
  wf w -> mutex (mgr w) = false ->
  run (GetBlock n) w = Ret v w' ->
  exists k l,
    (k < numClasses)%nat /\
    find_class n = Some (class_size k, Z.of_nat k) /\
    blocks (mgr w) !! k = Some l /\
    ((first_free (used (mgr w)) l = Some v /\ w' = reuse v w) \/
     (first_free (used (mgr w)) l = None /\ 0 <= n <= class_size k /\
      v = mkSlice (Pool (length (heap w))) 0 (Z.to_nat n) (Z.to_nat (class_size k)) /\
      w' = grow k (Z.to_nat (class_size k)) l w)).
Proof.
  intros Hw Hm Hrun. rewrite run_GetBlock_outcome in Hrun by done.
  unfold GetBlock_outcome in Hrun.
  destruct (find_class n) as [[c s]|] eqn:Hc; [|done].
  destruct (find_class_Some _ _ _ Hc) as (k & _ & -> & -> & _).
  rewrite Nat2Z.id in Hrun.
  destruct (blocks (mgr w) !! k) as [l|] eqn:Hl; [|done].
  exists k, l. split.
  { apply lookup_lt_Some in Hl. by rewrite (wf_classes _ Hw) in Hl. }
  split; [done|]. split; [done|].
  unfold get_in_class_outcome, sliced in Hrun. pose proof (class_size_pos k).
  destruct (first_free (used (mgr w)) l) as [b|] eqn:Hf.
  - injection Hrun as -> ->. by left.
  - right. destruct (Z.ltb_spec n 0); [done|].
    destruct (Z.ltb_spec (Z.of_nat (Z.to_nat (class_size k))) n); [done|].
    simpl in Hrun. injection Hrun as <- <-. repeat split; try done; lia.
Qed.

(** X3. Every view [GetBlock] returns shows zero bytes only, as many as
    its length: a reused block is cleared, a new one comes zeroed from
    [make]. *)
Theorem GetBlock_view_is_zero (w : world) (n : Z) (v : slice) (w' : world) :
  reachable w ->
  run (GetBlock n) w = Ret v w' ->
  view_bytes w' v = replicate (sl_len v) Byte.x00.
Proof.
  intros [Hw Hm]%reachable_wf Hrun.
  destruct (GetBlock_Ret_cases _ _ _ _ Hw Hm Hrun)
    as (k & l & Hk & Hc & Hl & [[Hf ->]|(Hf & Hn & -> & ->)]).
  - apply first_free_Some in Hf as [Hb _].
    eapply view_bytes_reuse, wf_block; eauto.
  - unfold view_bytes. cbn [sl_arr sl_off sl_len grow heap].
    rewrite lookup_app_r by done. rewrite Nat.sub_diag. simpl.
    rewrite drop_0, take_replicate. f_equal. lia.
Qed.

Lemma GetBlock_view_is_zero_witness :
  view_bytes (after [CallGetBlock 1000] NewWorld) view1000 = replicate 1000 Byte.x00.
Proof.
  apply (GetBlock_view_is_zero NewWorld 1000 view1000).
  - apply reachable_new.
  - vm_compute. reflexivity.
Defined.

(** X4. A [GetBlock] that returns adds one key to the checked-out set,
    the first byte of the block behind the view, which was not in the
    set; it leaves the bytes of every other block as they were, and every
    class keeps its blocks in their order, with at most one appended. *)
Theorem GetBlock_frame (w : world) (n : Z) (v : slice) (w' : world) :
  reachable w ->
  run (GetBlock n) w = Ret v w' ->
  used (mgr w) !! (sl_arr v, sl_off v) = None /\
  used (mgr w') = <[(sl_arr v, sl_off v) := true]> (used (mgr w)) /\
  (forall k a, heap w !! k = Some a -> sl_arr v <> Pool k -> heap w' !! k = Some a) /\
  (forall s l, blocks (mgr w) !! s = Some l ->
               exists l', blocks (mgr w') !! s = Some (l ++ l') /\ (length l' <= 1)%nat) /\
  mutex (mgr w') = false.
Proof.
  intros [Hw Hm]%reachable_wf Hrun.
  destruct (GetBlock_Ret_cases _ _ _ _ Hw Hm Hrun)
    as (k & l & Hk & Hc & Hl & [[Hf ->]|(Hf & Hn & -> & ->)]).
  - apply first_free_Some in Hf as [Hb Hu].
    destruct (wf_block _ Hw _ _ _ Hl Hb) as (a0 & Harr & _).
    split; [by apply not_used_absent|]. split; [done|]. split; [|split; [|done]].
    + intros k' a Ha Hne. cbn [reuse heap set_heap].
      rewrite (zero_heap_lookup_ne v a0); [done|done|congruence].
    + intros s l0 Hl0. exists []. rewrite app_nil_r. split; [done|simpl; lia].
  - cbn [sl_arr sl_off grow mgr used heap blocks mutex].
    split; [|split; [done|split; [|split; [|done]]]].
    + destruct (used (mgr w) !! (Pool (length (heap w)), 0%nat)) as [u|] eqn:E; [|done].
      destruct (wf_used _ Hw _ _ E) as (_ & s' & l' & b' & Hl' & Hb' & Heq).
      destruct (wf_block _ Hw _ _ _ Hl' Hb') as (a & Ha & _ & _ & _ & Hlk).
      injection Heq as Heq _. rewrite <- Heq in Ha. injection Ha as <-.
      apply lookup_lt_Some in Hlk. rewrite length_fmap in Hlk. lia.
    + intros k' a Ha _. rewrite lookup_app_l; [done|]. by apply lookup_lt_Some in Ha.
    + intros s l0 Hl0. destruct (decide (k = s)) as [<-|Hne].
      * rewrite list_lookup_insert_eq by (by apply lookup_lt_Some in Hl).
        exists [fresh_block (Z.to_nat (class_size k)) w]. split; [congruence|simpl; lia].
      * rewrite list_lookup_insert_ne by done. exists []. rewrite app_nil_r.
        split; [done|simpl; lia].
Qed.

Lemma GetBlock_frame_witness :
  used (mgr w_freed) !! (Pool 0, 0%nat) = None /\
  used (mgr (after [CallGetBlock 500] w_freed))
  = <[(Pool 0, 0%nat) := true]> (used (mgr w_freed)) /\
  (forall k a, heap w_freed !! k = Some a -> Pool 0 <> Pool k ->
               heap (after [CallGetBlock 500] w_freed) !! k = Some a) /\
  (forall s l, blocks (mgr w_freed) !! s = Some l ->
               exists l', blocks (mgr (after [CallGetBlock 500] w_freed)) !! s = Some (l ++ l')
                          /\ (length l' <= 1)%nat) /\
  mutex (mgr (after [CallGetBlock 500] w_freed)) = false.
Proof.
  apply (GetBlock_frame w_freed 500 (mkSlice (Pool 0) 0 1024 1024)).
  - apply reachable_w_freed.
  - vm_compute. reflexivity.
Defined.

(** ** Which block [GetBlock] takes *)

Lemma first_free_at (u : gmap ptr bool) (l : list slice) (i : nat) (b : slice) :
  l !! i = Some b -> is_used u b = false ->
  (forall j b', (j < i)%nat -> l !! j = Some b' -> is_used u b' = true) ->
  first_free u l = Some b.
Proof.
  revert i. induction l as [|b0 l IH]; intros i Hb Hu Hbefore; [done|].
  destruct i as [|i]; simpl in *.
  - injection Hb as ->. by rewrite Hu.
  - rewrite (Hbefore 0%nat b0) by (done || lia).
    apply (IH i); [done|done|]. intros j b' Hj Hb'. apply (Hbefore (S j)); [lia|done].
Qed.

Lemma first_free_app (u : gmap ptr bool) (l l' : list slice) :
  first_free u l = None -> first_free u (l ++ l') = first_free u l'.
Proof.
  induction l as [|b l IH]; simpl; [done|]. by destruct (is_used u b).
Qed.

Lemma all_used_first_free (u : gmap ptr bool) (l : list slice) :
  (forall b, b ∈ l -> u !! (sl_arr b, sl_off b) = Some true) -> first_free u l = None.
Proof.
  intros H. apply first_free_None, Forall_forall. intros b Hb.
  unfold is_used. by rewrite (H b Hb).
Qed.

(** X5. When every block of the class of the request is checked out (or
    the class is empty), [GetBlock(n)] for [0 <= n <= 2^30] allocates: it
    returns the first [n] bytes of a new array of the class size, which
    it appends to the class as a whole block. *)
Theorem GetBlock_allocates_when_class_is_taken (w : world) (n : Z) (k : nat)
    (l : list slice) :
  reachable w -> 0 <= n <= 2 ^ 30 ->
  find_class n = Some (class_size k, Z.of_nat k) ->
  blocks (mgr w) !! k = Some l ->
  (forall b, b ∈ l -> used (mgr w) !! (sl_arr b, sl_off b) = Some true) ->
  exists w',
    run (GetBlock n) w
    = Ret (mkSlice (Pool (length (heap w))) 0 (Z.to_nat n) (Z.to_nat (class_size k))) w' /\
    heap w' = heap w ++ [replicate (Z.to_nat (class_size k)) Byte.x00] /\
    blocks (mgr w')
    = <[k := l ++ [mkSlice (Pool (length (heap w))) 0 (Z.to_nat (class_size k))
                           (Z.to_nat (class_size k))]]> (blocks (mgr w)).
Proof.
  intros [Hw Hm]%reachable_wf Hn Hc Hl Hall.
  destruct (find_class_Some _ _ _ Hc) as (k' & _ & Hk' & _ & Hle & _).
  pose proof (class_size_pos k).
  rewrite (run_GetBlock n k l) by (try done; by eapply wf_nonempty).
  rewrite get_in_class_outcome_fresh by (try done; (by apply all_used_first_free) || lia).
  eexists. split; [done|]. done.
Qed.

Lemma GetBlock_allocates_when_class_is_taken_witness :
  exists w',
    run (GetBlock 2000) NewWorld = Ret (mkSlice (Pool 0) 0 2000 2048) w' /\
    heap w' = [] ++ [replicate 2048 Byte.x00] /\
    blocks (mgr w') = <[1%nat := [] ++ [mkSlice (Pool 0) 0 2048 2048]]> (blocks (mgr NewWorld)).
Proof.
  apply (GetBlock_allocates_when_class_is_taken NewWorld 2000 1 []).
  - apply reachable_new.
  - lia.
  - reflexivity.
  - reflexivity.
  - intros b Hb. by apply elem_of_nil in Hb.
Defined.

(** X6. [GetBlock] reuses the first block of the class, in the order the
    blocks were appended, whose first byte is not in the checked-out set:
    with every earlier block of the class checked out, that block is what
    it returns, whole. *)
Theorem GetBlock_takes_first_free (w : world) (n : Z) (k : nat) (l : list slice)
    (i : nat) (b : slice) :
  reachable w ->
  find_class n = Some (class_size k, Z.of_nat k) ->
  blocks (mgr w) !! k = Some l ->
  l !! i = Some b ->
  used (mgr w) !! (sl_arr b, sl_off b) = None ->
  (forall j b', (j < i)%nat -> l !! j = Some b' ->
                used (mgr w) !! (sl_arr b', sl_off b') = Some true) ->
  exists w', run (GetBlock n) w = Ret b w' /\
             blocks (mgr w') = blocks (mgr w) /\
             length (heap w') = length (heap w).
Proof.
  intros [Hw Hm]%reachable_wf Hc Hl Hb Hfree Hbefore.
  rewrite (run_GetBlock n k l) by (try done; by eapply wf_nonempty).
  rewrite (get_in_class_outcome_reuse _ _ _ _ b).
  - exists (reuse b w). split; [done|]. split; [done|]. simpl.
    by rewrite <- (length_fmap length), shape_zero_heap, length_fmap.
  - apply (first_free_at _ _ i); [done|by unfold is_used; rewrite Hfree|].
    intros j b' Hj Hb'. unfold is_used. by rewrite (Hbefore j b' Hj Hb').
Qed.

Lemma GetBlock_takes_first_free_witness :
  exists w', run (GetBlock 500) w_freed = Ret (mkSlice (Pool 0) 0 1024 1024) w' /\
             blocks (mgr w') = blocks (mgr w_freed) /\
             length (heap w') = length (heap w_freed).
Proof.
  apply (GetBlock_takes_first_free w_freed 500 0 [mkSlice (Pool 0) 0 1024 1024] 0).
  - apply reachable_w_freed.
  - reflexivity.
  - vm_compute. reflexivity.
  - reflexivity.
  - vm_compute. reflexivity.
  - intros j b' Hj. lia.
Defined.

(** X7. A negative size is not refused at the start.  It gets class 0,
    and when no block of class 0 is free the call allocates a block of
    [smallestBlockSize] bytes, appends and marks it, and only then panics
    at [new_block[0:n]]: the block stays allocated and checked out, no
    view of it was returned, and the mutex is free again. *)
Theorem GetBlock_negative_allocates_then_panics (w : world) (n : Z) (l : list slice) :
  reachable w -> n < 0 ->
  blocks (mgr w) !! 0%nat = Some l ->
  (forall b, b ∈ l -> used (mgr w) !! (sl_arr b, sl_off b) = Some true) ->
  exists w',
    run (GetBlock n) w = Panicked (SliceBoundsOutOfRange n 1024) w' /\
    total_allocated w' = total_allocated w + smallestBlockSize /\
    used (mgr w') = <[(Pool (length (heap w)), 0%nat) := true]> (used (mgr w)) /\
    mutex (mgr w') = false.
Proof.
  intros [Hw Hm]%reachable_wf Hn Hl Hall.
  assert (find_class n = Some (class_size 0, Z.of_nat 0)) as Hc.
  { apply (find_class_fits n 0); [lia| |lia].
    change (class_size 0) with 1024. lia. }
  rewrite (run_GetBlock n 0 l) by (try done; by eapply wf_nonempty).
  unfold get_in_class_outcome, sliced. rewrite all_used_first_free by done.
  destruct (Z.ltb_spec n 0); [|lia]. cbn [orb].
  eexists. split; [reflexivity|]. split; [|split; [done|done]].
  by rewrite total_allocated_grow.
Qed.

Lemma GetBlock_negative_allocates_then_panics_witness :
  exists w',
    run (GetBlock (-1)) NewWorld = Panicked (SliceBoundsOutOfRange (-1) 1024) w' /\
    total_allocated w' = total_allocated NewWorld + smallestBlockSize /\
    used (mgr w') = <[(Pool 0, 0%nat) := true]> (used (mgr NewWorld)) /\
    mutex (mgr w') = false.
Proof.
  apply (GetBlock_negative_allocates_then_panics NewWorld (-1) []).
  - apply reachable_new.
  - lia.
  - reflexivity.
  - intros b Hb. by apply elem_of_nil in Hb.
Defined.

(** ** [GetBlock] and [FreeBlock] together *)

Lemma wf_mutex_reuse (w : world) (k : nat) (l : list slice) (b : slice) :
  wf w -> mutex (mgr w) = false -> blocks (mgr w) !! k = Some l -> b ∈ l ->
  wf (reuse b w) /\ mutex (mgr (reuse b w)) = false.
Proof. intros Hw Hm Hl Hb. split; [by eapply wf_reuse|done]. Qed.

(** Freeing a view with a first byte that [GetBlock] has just marked. *)
Lemma run_FreeBlock_marked (v : slice) (u : gmap ptr bool) (w1 : world) :
  wf w1 -> mutex (mgr w1) = false -> nonempty v ->
  u !! (sl_arr v, sl_off v) = None ->
  used (mgr w1) = <[(sl_arr v, sl_off v) := true]> u ->
  run (FreeBlock v) w1 = Ret tt (set_used u w1).
Proof.
  intros Hw Hm Hne Hu Hused. rewrite run_FreeBlock by done. unfold FreeBlock_outcome.
  destruct (Nat.eqb_spec (sl_len v) 0) as [H0|_]; [done|].
  rewrite Hused, lookup_insert_eq. by rewrite delete_insert_id.
Qed.

(** X8. The round trip of the README: for [1 <= n <= 2^30],
    [GetBlock(n)] returns a view that [FreeBlock] accepts, and after the
    two calls the checked-out set is what it was before them; a further
    [GetBlock] of any size of the same class then returns the same
    block, and allocates nothing. *)
Theorem GetBlock_FreeBlock_roundtrip (w : world) (n : Z) :
  reachable w -> 1 <= n <= 2 ^ 30 ->
  exists v w1 w2,
    run (GetBlock n) w = Ret v w1 /\
    run (FreeBlock v) w1 = Ret tt w2 /\
    used (mgr w2) = used (mgr w) /\
    blocks (mgr w2) = blocks (mgr w1) /\
    heap w2 = heap w1 /\
    forall m, find_class m = find_class n ->
      exists v' w3, run (GetBlock m) w2 = Ret v' w3 /\
                    sl_arr v' = sl_arr v /\
                    total_allocated w3 = total_allocated w2.
Proof.
  intros [Hw Hm]%reachable_wf Hn.
  destruct (GetBlock_in_range w n Hw Hm) as (k & l & Hk & Hle & Hlt & Hl & Hrun); [lia|].
  assert (find_class n = Some (class_size k, Z.of_nat k)) as Hc.
  { apply find_class_fits.
    - unfold numClasses in Hk. lia.
    - done.
    - intros H0. apply Hlt. lia. }
  pose proof (class_size_pos k) as Hpos.
  destruct (first_free (used (mgr w)) l) as [b|] eqn:Hf.
  - (* the block is reused *)
    rewrite (get_in_class_outcome_reuse _ _ _ _ b) in Hrun by done.
    pose proof Hf as Hf'. apply first_free_Some in Hf' as [Hb Hu].
    pose proof (not_used_absent _ _ Hw Hu) as Habs.
    destruct (wf_mutex_reuse w k l b Hw Hm Hl Hb) as [Hw1 Hm1].
    pose proof (block_ok_nonempty _ _ _ (wf_block _ Hw _ _ _ Hl Hb)) as Hne.
    exists b, (reuse b w), (set_used (used (mgr w)) (reuse b w)).
    split; [done|]. split; [by apply run_FreeBlock_marked|].
    split; [done|]. split; [done|]. split; [done|].
    intros m Hcm. rewrite Hc in Hcm.
    assert (wf (set_used (used (mgr w)) (reuse b w))) as Hw2.
    { eapply wf_shape; [| | |exact Hw]; simpl; [apply shape_zero_heap|done|done]. }
    exists b, (reuse b (set_used (used (mgr w)) (reuse b w))).
    rewrite (run_GetBlock m k l) by (try done; by eapply wf_nonempty).
    by rewrite (get_in_class_outcome_reuse _ _ _ _ b).
  - (* a block is allocated *)
    rewrite get_in_class_outcome_fresh in Hrun by (try done; lia).
    set (c := Z.to_nat (class_size k)) in *.
    set (v := mkSlice (Pool (length (heap w))) 0 (Z.to_nat n) c) in *.
    assert (wf (grow k c l w)) as Hw1 by (by apply wf_grow).
    assert (used (mgr w) !! (Pool (length (heap w)), 0%nat) = None) as Habs.
    { destruct (used (mgr w) !! (Pool (length (heap w)), 0%nat)) as [u|] eqn:E; [|done].
      destruct (wf_used _ Hw _ _ E) as (_ & s' & l' & b' & Hl' & Hb' & Heq).
      destruct (wf_block _ Hw _ _ _ Hl' Hb') as (a & Ha & _ & _ & _ & Hlk).
      injection Heq as Heq _. rewrite <- Heq in Ha. injection Ha as <-.
      apply lookup_lt_Some in Hlk. rewrite length_fmap in Hlk. lia. }
    exists v, (grow k c l w), (set_used (used (mgr w)) (grow k c l w)).
    split; [done|]. split.
    { apply run_FreeBlock_marked; try done. unfold nonempty, v. simpl. lia. }
    split; [done|]. split; [done|]. split; [done|].
    intros m Hcm. rewrite Hc in Hcm.
    assert (wf (set_used (used (mgr w)) (grow k c l w))) as Hw2.
    { pose proof (wf_set_used_delete _ (Pool (length (heap w)), 0%nat) Hw1) as H.
      simpl in H. rewrite delete_insert_id in H by done. exact H. }
    assert (blocks (mgr (set_used (used (mgr w)) (grow k c l w))) !! k
            = Some (l ++ [fresh_block c w])) as Hl2.
    { simpl. apply list_lookup_insert_eq. by apply lookup_lt_Some in Hl. }
    exists (fresh_block c w), (reuse (fresh_block c w) (set_used (used (mgr w)) (grow k c l w))).
    rewrite (run_GetBlock m k _) by (try done; by eapply wf_nonempty).
    rewrite (get_in_class_outcome_reuse _ _ _ _ (fresh_block c w)); [done|].
    cbn [set_used set_mgr mgr used]. rewrite first_free_app by done.
    simpl. unfold is_used. simpl. by rewrite Habs.
Qed.

Lemma GetBlock_FreeBlock_roundtrip_witness :
  exists v w1 w2,
    run (GetBlock 2000) NewWorld = Ret v w1 /\
    run (FreeBlock v) w1 = Ret tt w2 /\
    used (mgr w2) = used (mgr NewWorld) /\
    blocks (mgr w2) = blocks (mgr w1) /\
    heap w2 = heap w1 /\
    forall m, find_class m = find_class 2000 ->
      exists v' w3, run (GetBlock m) w2 = Ret v' w3 /\
                    sl_arr v' = sl_arr v /\
                    total_allocated w3 = total_allocated w2.
Proof.
  apply (GetBlock_FreeBlock_roundtrip NewWorld 2000).
  - apply reachable_new.
  - lia.
Defined.

(** X9. [FreeBlock] wants the view as [GetBlock] gave it, from the first
    byte of the block: a view that starts further inside a block, such as
    [b[1:]], panics and frees nothing, checked out or not. *)
Theorem FreeBlock_inside_a_block_panics (w : world) (b : slice) :
  reachable w -> sl_off b <> 0%nat ->
  run (FreeBlock b) w = Panicked (free_panic b) w.
Proof.
  intros [Hw Hm]%reachable_wf Hoff.
  rewrite run_FreeBlock by done. unfold FreeBlock_outcome, free_panic.
  destruct (sl_len b =? 0)%nat; [done|].
  destruct (used (mgr w) !! (sl_arr b, sl_off b)) as [v|] eqn:E; [|done].
  destruct (wf_used _ Hw _ _ E) as (_ & s & l & b' & Hl & Hb' & Heq).
  destruct (wf_block _ Hw _ _ _ Hl Hb') as (a & _ & Hoff' & _).
  injection Heq as _ Heq. congruence.
Qed.

Lemma FreeBlock_inside_a_block_panics_witness :
  run (FreeBlock (mkSlice (Pool 0) 1 999 1023)) w_taken
  = Panicked (PanicString "Tried to free an unused block") w_taken.
Proof.
  apply (FreeBlock_inside_a_block_panics w_taken (mkSlice (Pool 0) 1 999 1023)).
  - apply reachable_w_taken.
  - simpl. lia.
Defined.

(** ** What every call keeps *)

(** A call, in a world of the invariant, leaves the class table and the
    sizes of the arrays alone, or it is a [GetBlock] that allocated. *)
Lemma call_final_world (w : world) (c : call) :
  wf w ->
  (blocks (mgr (final_world (run (call_prog c) w))) = blocks (mgr w) /\
   length <$> heap (final_world (run (call_prog c) w)) = length <$> heap w) \/
  (exists k l, blocks (mgr w) !! k = Some l /\
               final_world (run (call_prog c) w) = grow k (Z.to_nat (class_size k)) l w).
Proof.
  intros Hw. destruct c as [n|b| |b j v]; cbn [call_prog]; rewrite run_bind.
  - destruct (mutex (mgr w)) eqn:Hm.
    { unfold GetBlock. rewrite run_with_lock, Hm. by left. }
    rewrite run_GetBlock_outcome by done. unfold GetBlock_outcome.
    destruct (find_class n) as [[c s]|] eqn:Hc; [|by left].
    destruct (find_class_Some _ _ _ Hc) as (k & Hk & -> & -> & _).
    rewrite Nat2Z.id.
    destruct (blocks (mgr w) !! k) as [l|] eqn:Hl; [|by left].
    unfold get_in_class_outcome, sliced.
    destruct (first_free (used (mgr w)) l) as [b|] eqn:Hf; simpl.
    + left. split; [done|]. apply shape_zero_heap.
    + right. exists k, l. split; [done|]. by destruct (_ || _).
  - left. destruct (mutex (mgr w)) eqn:Hm.
    { unfold FreeBlock. rewrite run_with_lock, Hm. done. }
    rewrite run_FreeBlock by done. unfold FreeBlock_outcome.
    destruct (sl_len b =? 0)%nat; [done|].
    by destruct (used (mgr w) !! (sl_arr b, sl_off b)).
  - left. destruct (run_read_only TotalAllocations w read_only_TotalAllocations)
      as [[a ->]|[e ->]]; done.
  - left. unfold store. destruct (j <? sl_len b)%nat; [|done].
    rewrite run_act by done. simpl. split; [done|]. apply shape_poke.
Qed.

Lemma reachable_after (w : world) : reachable w -> exists cs, w = after cs NewWorld.
Proof.
  induction 1 as [|w c r w' _ [cs ->] _ Hrun|w c e w' _ [cs ->] _ Hrun].
  - by exists [].
  - exists (cs ++ [c]). by rewrite after_snoc, Hrun.
  - exists (cs ++ [c]). by rewrite after_snoc, Hrun.
Qed.

(** X10. The checked-out set of a manager holds nothing but first bytes of
    its own blocks, each with the value [true]: no key of memory the
    manager did not allocate, no key inside a block, no key set to
    [false]. *)
Theorem used_keys_are_blocks (w : world) (p : ptr) (v : bool) :
  reachable w -> used (mgr w) !! p = Some v ->
  v = true /\
  exists s l b k a,
    blocks (mgr w) !! s = Some l /\ b ∈ l /\
    sl_arr b = Pool k /\ p = (Pool k, 0%nat) /\ heap w !! k = Some a.
Proof.
  intros [Hw _]%reachable_wf Hp.
  destruct (wf_used _ Hw _ _ Hp) as (-> & s & l & b & Hl & Hb & ->).
  split; [done|].
  destruct (wf_block _ Hw _ _ _ Hl Hb) as (k & Harr & Hoff & _ & _ & Hk).
  rewrite list_lookup_fmap in Hk. destruct (heap w !! k) as [a|] eqn:Ha; [|done].
  exists s, l, b, k, a. repeat split; try done. by rewrite Harr, Hoff.
Qed.

Lemma used_keys_are_blocks_witness :
  true = true /\
  exists s l b k a,
    blocks (mgr w_taken) !! s = Some l /\ b ∈ l /\
    sl_arr b = Pool k /\ (Pool 0, 0%nat) = (Pool k, 0%nat) /\ heap w_taken !! k = Some a.
Proof.
  apply (used_keys_are_blocks w_taken (Pool 0, 0%nat) true).
  - apply reachable_w_taken.
  - vm_compute. reflexivity.
Defined.

(** X11. The class table has its 21 classes at all times, and class [s]
    holds whole arrays of [2^(10+s)] bytes, as the comment on
    [Manager.blocks] says: a block has offset 0, length and capacity
    [smallestBlockSize * 2^s], over an array of that many bytes. *)
Theorem blocks_have_class_size (w : world) (s : nat) (l : list slice) (b : slice) :
  reachable w -> blocks (mgr w) !! s = Some l -> b ∈ l ->
  length (blocks (mgr w)) = numClasses /\ (s < numClasses)%nat /\
  class_size s = 2 ^ (10 + Z.of_nat s) /\
  exists k a,
    sl_arr b = Pool k /\ sl_off b = 0%nat /\
    Z.of_nat (sl_len b) = class_size s /\ Z.of_nat (sl_cap b) = class_size s /\
    heap w !! k = Some a /\ Z.of_nat (length a) = class_size s.
Proof.
  intros [Hw _]%reachable_wf Hl Hb. pose proof (class_size_pos s).
  split; [by apply wf_classes|]. split.
  { apply lookup_lt_Some in Hl. by rewrite (wf_classes _ Hw) in Hl. }
  split.
  { unfold class_size, smallestBlockSize. rewrite Z.pow_add_r by lia. done. }
  destruct (wf_block _ Hw _ _ _ Hl Hb) as (k & Harr & Hoff & Hlen & Hcap & Hk).
  rewrite list_lookup_fmap in Hk. destruct (heap w !! k) as [a|] eqn:Ha; [|done].
  injection Hk as Hk. exists k, a. repeat split; try done; lia.
Qed.

Lemma blocks_have_class_size_witness :
  length (blocks (mgr w_taken)) = numClasses /\ (0 < numClasses)%nat /\
  class_size 0 = 2 ^ (10 + Z.of_nat 0) /\
  exists k a,
    sl_arr (mkSlice (Pool 0) 0 1024 1024) = Pool k /\
    sl_off (mkSlice (Pool 0) 0 1024 1024) = 0%nat /\
    Z.of_nat (sl_len (mkSlice (Pool 0) 0 1024 1024)) = class_size 0 /\
    Z.of_nat (sl_cap (mkSlice (Pool 0) 0 1024 1024)) = class_size 0 /\
    heap w_taken !! k = Some a /\ Z.of_nat (length a) = class_size 0.
Proof.
  apply (blocks_have_class_size w_taken 0 [mkSlice (Pool 0) 0 1024 1024]).
  - apply reachable_w_taken.
  - vm_compute. reflexivity.
  - apply elem_of_cons. by left.
Defined.

Lemma after_blocks_grow (cs : list call) (w : world) (s : nat) (l : list slice) :
  wf w -> blocks (mgr w) !! s = Some l ->
  exists l', blocks (mgr (after cs w)) !! s = Some (l ++ l').
Proof.
  revert w l. induction cs as [|c cs IH]; intros w l Hw Hl.
  - exists []. by rewrite app_nil_r.
  - change (after (c :: cs) w) with (after cs (final_world (run (call_prog c) w))).
    destruct (call_allocates w c Hw) as [Hw' _].
    destruct (call_final_world w c Hw) as [[Hb _]|(k & l0 & Hl0 & Hfin)].
    + apply IH; [done|]. by rewrite Hb.
    + destruct (decide (k = s)) as [->|Hne].
      * assert (l0 = l) as -> by congruence.
        destruct (IH (final_world (run (call_prog c) w))
                    (l ++ [fresh_block (Z.to_nat (class_size s)) w]) Hw') as [l' Hl'].
        { rewrite Hfin. simpl. apply list_lookup_insert_eq. by apply lookup_lt_Some in Hl. }
        exists ([fresh_block (Z.to_nat (class_size s)) w] ++ l').
        by rewrite app_assoc.
      * apply IH; [done|]. rewrite Hfin. simpl. by rewrite list_lookup_insert_ne.
Qed.

Lemma after_heap_grows (cs : list call) (w : world) (k : nat) (a : list Byte.byte) :
  wf w -> heap w !! k = Some a ->
  exists a', heap (after cs w) !! k = Some a' /\ length a' = length a.
Proof.
  revert w a. induction cs as [|c cs IH]; intros w a Hw Ha.
  - by exists a.
  - change (after (c :: cs) w) with (after cs (final_world (run (call_prog c) w))).
    destruct (call_allocates w c Hw) as [Hw' _].
    assert (exists a1, heap (final_world (run (call_prog c) w)) !! k = Some a1 /\
                       length a1 = length a) as (a1 & Ha1 & Hlen1).
    { destruct (call_final_world w c Hw) as [[_ Hh]|(k0 & l0 & Hl0 & Hfin)].
      - assert ((length <$> heap (final_world (run (call_prog c) w))) !! k
                = Some (length a)) as Hk by (by rewrite Hh, list_lookup_fmap, Ha).
        rewrite list_lookup_fmap in Hk.
        destruct (heap (final_world (run (call_prog c) w)) !! k) as [a1|]; [|done].
        injection Hk as Hk. by exists a1.
      - exists a. rewrite Hfin. simpl. split; [|done].
        rewrite lookup_app_l; [done|]. by apply lookup_lt_Some in Ha. }
    destruct (IH _ a1 Hw' Ha1) as (a' & Ha' & Hlen'). exists a'. split; [done|]. congruence.
Qed.

(** X12. Blocks are for ever: over any further calls a class keeps the
    blocks it has, in their order, new ones coming at the end, and an
    array the manager allocated stays, with its size. *)
Theorem blocks_are_never_dropped (cs cs' : list call) :
  (forall s l, blocks (mgr (after cs NewWorld)) !! s = Some l ->
     exists l', blocks (mgr (after (cs ++ cs') NewWorld)) !! s = Some (l ++ l')) /\
  (forall k a, heap (after cs NewWorld) !! k = Some a ->
     exists a', heap (after (cs ++ cs') NewWorld) !! k = Some a' /\ length a' = length a).
Proof.
  pose proof (wf_after cs NewWorld wf_NewWorld) as Hw. rewrite after_app. split.
  - intros s l Hl. by apply after_blocks_grow.
  - intros k a Ha. by apply after_heap_grows.
Qed.

Lemma grow_lookup (bs : list (list slice)) (k : nat) (l : list slice) (x : slice)
    (s : nat) (l' : list slice) (i : nat) (b : slice) :
  bs !! k = Some l ->
  <[k := l ++ [x]]> bs !! s = Some l' -> l' !! i = Some b ->
  (exists l0, bs !! s = Some l0 /\ l0 !! i = Some b) \/
  (s = k /\ i = length l /\ b = x).
Proof.
  intros Hk Hs Hi. destruct (decide (k = s)) as [<-|Hne].
  - rewrite list_lookup_insert_eq in Hs by (by apply lookup_lt_Some in Hk).
    injection Hs as <-. apply lookup_snoc_Some in Hi as [[_ Hi]|[-> ->]].
    + left. by exists l.
    + by right.
  - rewrite list_lookup_insert_ne in Hs by done. left. by exists l'.
Qed.

Lemma distinct_grow (w : world) (k c : nat) (l : list slice) :
  wf w -> distinct_blocks w -> blocks (mgr w) !! k = Some l ->
  distinct_blocks (grow k c l w).
Proof.
  intros Hw Hd Hl s1 l1 i1 b1 s2 l2 i2 b2 H1 Hb1 H2 Hb2 Harr. simpl in H1, H2.
  assert (forall s l0 i b, blocks (mgr w) !! s = Some l0 -> l0 !! i = Some b ->
                           sl_arr b <> Pool (length (heap w))) as Hold.
  { intros s l0 i b Hl0 Hb Hb'.
    destruct (wf_block _ Hw s l0 b Hl0) as (a & Ha & _ & _ & _ & Hlk).
    { apply list_elem_of_lookup. eauto. }
    rewrite Hb' in Ha. injection Ha as <-.
    apply lookup_lt_Some in Hlk. rewrite length_fmap in Hlk. lia. }
  destruct (grow_lookup _ _ _ _ _ _ _ _ Hl H1 Hb1) as [(l1' & Hl1 & Hb1')|(-> & -> & ->)];
    destruct (grow_lookup _ _ _ _ _ _ _ _ Hl H2 Hb2) as [(l2' & Hl2 & Hb2')|(-> & -> & ->)].
  - by eapply Hd.
  - by destruct (Hold _ _ _ _ Hl1 Hb1').
  - symmetry in Harr. by destruct (Hold _ _ _ _ Hl2 Hb2').
  - done.
Qed.

Lemma distinct_after (cs : list call) : distinct_blocks (after cs NewWorld).
Proof.
  induction cs as [|c cs IH] using rev_ind.
  - intros s1 l1 i1 b1 s2 l2 i2 b2 H1 Hb1. unfold NewWorld, NewManager in H1.
    cbn [after fold_left mgr blocks] in H1. apply lookup_replicate_1 in H1 as [-> _]. done.
  - rewrite after_snoc. pose proof (wf_after cs NewWorld wf_NewWorld) as Hw.
    destruct (call_final_world _ c Hw) as [[Hb _]|(k & l & Hl & ->)].
    + unfold distinct_blocks. rewrite Hb. exact IH.
    + by apply distinct_grow.
Qed.

(** X13. No two blocks of a manager share memory: blocks at different
    places of the class table, in one class or in two, are over
    different arrays. *)
Theorem blocks_are_distinct (cs : list call) (s1 i1 s2 i2 : nat) (l1 l2 : list slice)
    (b1 b2 : slice) :
  blocks (mgr (after cs NewWorld)) !! s1 = Some l1 -> l1 !! i1 = Some b1 ->
  blocks (mgr (after cs NewWorld)) !! s2 = Some l2 -> l2 !! i2 = Some b2 ->
  s1 <> s2 \/ i1 <> i2 ->
  sl_arr b1 <> sl_arr b2.
Proof.
  intros H1 Hb1 H2 Hb2 Hne Harr.
  destruct (distinct_after cs _ _ _ _ _ _ _ _ H1 Hb1 H2 Hb2 Harr) as [-> ->].
  by destruct Hne.
Qed.

Lemma blocks_are_distinct_witness : Pool 0 <> Pool 1.
Proof.
  apply (blocks_are_distinct [CallGetBlock 2000; CallGetBlock 1500] 1 0 1 1
           [mkSlice (Pool 0) 0 2048 2048; mkSlice (Pool 1) 0 2048 2048]
           [mkSlice (Pool 0) 0 2048 2048; mkSlice (Pool 1) 0 2048 2048]
           (mkSlice (Pool 0) 0 2048 2048) (mkSlice (Pool 1) 0 2048 2048)).
  - vm_compute. reflexivity.
  - reflexivity.
  - vm_compute. reflexivity.
  - reflexivity.
  - right. lia.
Defined.

(** X14. On a manager whose mutex is free every call ends, by a return or
    by a panic, and leaves the mutex free, the deferred [Unlock] running
    on the panics too; the one exception is [GetBlock(n)] with
    [n > 2^62], which never returns and keeps the mutex. *)
Theorem calls_end_with_the_mutex_free (w : world) (c : call) :
  reachable w ->
  (exists r w', run (call_prog c) w = Ret r w' /\ mutex (mgr w') = false) \/
  (exists e w', run (call_prog c) w = Panicked e w' /\ mutex (mgr w') = false) \/
  (exists n, c = CallGetBlock n /\ 2 ^ 62 < n /\
             run (call_prog c) w = Diverge (set_mutex true w)).
Proof.
  intros [Hw Hm]%reachable_wf.
  pose proof (call_preserves w c Hw Hm) as Hp.
  destruct (run (call_prog c) w) as [r w'|e w'|w'] eqn:Hrun.
  - left. exists r, w'. by destruct Hp.
  - right. left. exists e, w'. by destruct Hp.
  - right. right. destruct c as [n|b| |b j v]; cbn [call_prog] in Hrun;
      rewrite run_bind in Hrun.
    + rewrite run_GetBlock_outcome in Hrun by done. unfold GetBlock_outcome in Hrun.
      destruct (find_class n) as [[c s]|] eqn:Hc.
      * destruct (blocks (mgr w) !! Z.to_nat s) as [l|]; [|done].
        unfold get_in_class_outcome, sliced in Hrun.
        destruct (first_free (used (mgr w)) l); [done|]. by destruct (_ || _).
      * exists n. split; [done|]. split; [by apply find_class_None|].
        simpl in Hrun. by injection Hrun as <-.
    + rewrite run_FreeBlock in Hrun by done. unfold FreeBlock_outcome in Hrun.
      destruct (sl_len b =? 0)%nat; [done|].
      by destruct (used (mgr w) !! (sl_arr b, sl_off b)).
    + destruct (run_read_only TotalAllocations w read_only_TotalAllocations)
        as [[a Ha]|[e Ha]]; by rewrite Ha in Hrun.
    + unfold store in Hrun. destruct (j <? sl_len b)%nat; [|done].
      by rewrite run_act in Hrun.
Qed.

Lemma calls_end_with_the_mutex_free_witness :
  (exists r w', run (call_prog (CallFreeBlock view1000)) w_freed = Ret r w' /\
                mutex (mgr w') = false) \/
  (exists e w', run (call_prog (CallFreeBlock view1000)) w_freed = Panicked e w' /\
                mutex (mgr w') = false) \/
  (exists n, CallFreeBlock view1000 = CallGetBlock n /\ 2 ^ 62 < n /\
             run (call_prog (CallFreeBlock view1000)) w_freed = Diverge (set_mutex true w_freed)).
Proof.
  apply (calls_end_with_the_mutex_free w_freed (CallFreeBlock view1000)).
  apply reachable_w_freed.
Defined.

(** ** The text of the report *)

Lemma append_assoc (a b c : string) : (a +:+ b) +:+ c = a +:+ b +:+ c.
Proof. induction a as [|x a IH]; [done|]. change (String x ((a +:+ b) +:+ c) = String x (a +:+ b +:+ c)). by f_equal. Qed.

Lemma append_empty_r (a : string) : a +:+ "" = a.
Proof. induction a as [|x a IH]; [done|]. change (String x (a +:+ "") = String x a). by f_equal. Qed.

Lemma used_count_bounds (u : gmap ptr bool) (l : list slice) :
  0 <= used_count u l <= Z.of_nat (length l).
Proof.
  induction l as [|b l IH]; simpl; [lia|]. destruct (is_used u b); lia.
Qed.

Lemma allocated_from_nonneg (s : nat) (ls : list (list slice)) : 0 <= allocated_from s ls.
Proof.
  revert s. induction ls as [|l ls IH]; intros s; simpl; [lia|].
  pose proof (class_size_pos s). specialize (IH (S s)). nia.
Qed.

Lemma used_from_bounds (u : gmap ptr bool) (s : nat) (ls : list (list slice)) :
  0 <= used_from u s ls <= allocated_from s ls.
Proof.
  revert s. induction ls as [|l ls IH]; intros s; simpl; [lia|].
  pose proof (class_size_pos s). pose proof (used_count_bounds u l).
  specialize (IH (S s)). nia.
Qed.

Lemma run_count_used (s : nat) (l : list slice) (k i : nat) (cnt : Z) (w : world) :
  blocks (mgr w) !! s = Some l -> Forall nonempty l ->
  length l = (i + k)%nat ->
  0 <= cnt -> cnt + used_count (used (mgr w)) (drop i l) < 2 ^ 63 ->
  run (count_used (Z.of_nat s) k i cnt) w
  = Ret (cnt + used_count (used (mgr w)) (drop i l)) w.
Proof.
  intros Hl Hne. revert i cnt. induction k as [|k IH]; intros i cnt Hlen Hcnt Hmax.
  - simpl. rewrite drop_ge by lia. simpl. by rewrite Z.add_0_r.
  - destruct (lookup_lt_is_Some_2 l i) as [b Hb]; [lia|].
    assert (nonempty b) as Hb0.
    { eapply Forall_forall; [apply Hne|]. apply list_elem_of_lookup. eauto. }
    rewrite (drop_S _ _ _ Hb) in *. cbn [count_used used_count] in *.
    pose proof (used_count_bounds (used (mgr w)) (drop (S i) l)) as Hrest.
    rewrite run_bind, (run_block_at _ _ l b) by done. cbn [then_do].
    rewrite run_bind, run_addr0 by done. cbn [then_do].
    rewrite run_bind. unfold used_get. rewrite run_bind, run_act by done.
    cbn [then_do fst snd prim_sem run]. fold (is_used (used (mgr w)) b).
    destruct (is_used (used (mgr w)) b).
    + rewrite wrap_small by lia. rewrite IH by lia. f_equal. lia.
    + rewrite IH by lia. f_equal.
Qed.

Lemma run_report_class (s : nat) (l : list slice) (v : report_vars) (w : world) :
  blocks (mgr w) !! s = Some l -> Forall nonempty l ->
  (s < numClasses)%nat -> rv_c v = class_size s ->
  0 <= rv_total_used v <= rv_total_allocated v ->
  rv_total_allocated v + class_size s * Z.of_nat (length l) < 2 ^ 63 ->
  run (report_class (Z.of_nat s) v) w
  = Ret (mkVars (class_size (S s))
                (rv_ret v +:+ class_report (used (mgr w)) s l)
                (rv_total_used v + class_size s * used_count (used (mgr w)) l)
                (rv_total_allocated v + class_size s * Z.of_nat (length l))) w.
Proof.
  intros Hl Hne Hs Hc Htu Hta. unfold report_class.
  pose proof (class_size_pos s) as Hpos.
  pose proof (used_count_bounds (used (mgr w)) l) as Hcnt.
  assert (class_size s <= class_size 20) as Hmax
    by (apply class_size_mono; unfold numClasses in Hs; lia).
  rewrite class_size_20 in Hmax.
  rewrite run_bind, (run_blocks_at_Some _ l) by done. cbn [then_do].
  rewrite run_bind, (run_count_used s l) by (try done; rewrite ?drop_0; nia).
  rewrite drop_0, Z.add_0_l. cbn [then_do].
  rewrite run_bind.
  assert (run (if 0 <? used_count (used (mgr w)) l
               then l1 <~ blocks_at (Z.of_nat s);;
                    Done (rv_ret v +:+ class_line (rv_c v) (used_count (used (mgr w)) l)
                                         (Z.of_nat (length l1)))
               else Done (rv_ret v)) w
          = Ret (rv_ret v +:+ class_report (used (mgr w)) s l) w) as ->.
  { unfold class_report. destruct (0 <? used_count (used (mgr w)) l).
    - rewrite run_bind, (run_blocks_at_Some _ l) by done. simpl. by rewrite Hc.
    - simpl. by rewrite append_empty_r. }
  cbn [then_do]. rewrite run_bind, (run_blocks_at_Some _ l) by done.
  cbn [then_do run]. rewrite Hc. f_equal.
  rewrite <- class_size_S.
  rewrite (wrap_small (class_size (S s))) by (rewrite class_size_S; lia).
  rewrite (wrap_small (used_count _ _ * _)) by nia.
  rewrite (wrap_small (Z.of_nat _ * _)) by nia.
  rewrite !wrap_small by nia.
  f_equal; lia.
Qed.

Lemma run_report_loop (bs : list (list slice)) (k s : nat) (v : report_vars) (w : world) :
  blocks (mgr w) = bs -> wf w -> length bs = (s + k)%nat ->
  rv_c v = class_size s ->
  0 <= rv_total_used v <= rv_total_allocated v ->
  rv_total_allocated v + allocated_from s (drop s bs) < 2 ^ 63 ->
  run (report_loop k s v) w
  = Ret (mkVars (class_size (s + k))
                (rv_ret v +:+ classes_report (used (mgr w)) s (drop s bs))
                (rv_total_used v + used_from (used (mgr w)) s (drop s bs))
                (rv_total_allocated v + allocated_from s (drop s bs))) w.
Proof.
  intros Hbs Hw. revert s v. induction k as [|k IH]; intros s v Hlen Hc Htu Hta.
  - rewrite drop_ge by lia. simpl.
    rewrite append_empty_r, !Z.add_0_r, Nat.add_0_r, <- Hc. by destruct v.
  - destruct (lookup_lt_is_Some_2 bs s) as [l Hl]; [lia|].
    rewrite (drop_S _ _ _ Hl) in *. cbn [report_loop classes_report used_from allocated_from] in *.
    pose proof (allocated_from_nonneg (S s) (drop (S s) bs)) as Hrest.
    pose proof (used_from_bounds (used (mgr w)) (S s) (drop (S s) bs)) as Hurest.
    pose proof (used_count_bounds (used (mgr w)) l) as Hcnt.
    pose proof (class_size_pos s) as Hpos.
    assert (blocks (mgr w) !! s = Some l) as Hl' by (by rewrite Hbs).
    rewrite run_bind, (run_report_class s l);
      [|done|by eapply wf_nonempty| |done|done|lia].
    2:{ rewrite <- (wf_classes _ Hw), Hbs. lia. }
    cbn [then_do]. rewrite IH; cbn [rv_c rv_ret rv_total_used rv_total_allocated];
      [|lia|done|nia|lia].
    f_equal. rewrite append_assoc. f_equal; [f_equal; lia|lia|lia].
Qed.

(** X15. On a manager that has allocated less than [2^63] bytes
    [TotalAllocations] returns, changes nothing, and its text is exact:
    for each class with a block in use, in class order, the line
    "<class size> bytes: <blocks in use>/<blocks> blocks in use.", and
    last the line "Total memory used/allocated: <u>/<a>", where [u] is
    the sum of the sizes of the blocks in use and [a] the sum of the
    sizes of all blocks. *)
Theorem TotalAllocations_text (w : world) :
  reachable w -> total_allocated w < 2 ^ 63 ->
  run TotalAllocations w = Ret (report_text w) w.
Proof.
  intros [Hw _]%reachable_wf Hmax. unfold TotalAllocations, report_text.
  rewrite run_bind, run_act by done. cbn [then_do fst snd prim_sem].
  rewrite run_bind.
  rewrite (run_report_loop (blocks (mgr w)));
    cbn [rv_c rv_ret rv_total_used rv_total_allocated]; try done; lia.
Qed.

Lemma TotalAllocations_text_witness :
  run TotalAllocations w_taken = Ret (report_text w_taken) w_taken /\
  report_text w_taken
  = "1024 bytes: 1/1 blocks in use." +:+ newline
      +:+ "Total memory used/allocated: 1024/1024" +:+ newline.
Proof.
  split.
  - apply (TotalAllocations_text w_taken).
    + apply reachable_w_taken.
    + vm_compute. reflexivity.
  - vm_compute. reflexivity.
Defined.

(** ** The mutex in an execution *)

Lemma step_act_enabled (cfg : config) (ch : choice) (t : nat) (a : action) (cfg' : config) :
  step_fn cfg ch = Some (EvAct t a, cfg') ->
  exists c (X : Type) (e : prim X) (k : X -> prog result),
    threads cfg !! t = Some (Running c (Act e k)) /\ a = action_of e /\
    enabled e (cw cfg) = true.
Proof.
  destruct ch as [t0 c|t0]; simpl.
  - by destruct (threads cfg !! t0) as [[|c' p']|].
  - destruct (threads cfg !! t0) as [[|c p]|] eqn:Ht; try done.
    destruct p as [r|e| |X e k]; simpl; try done.
    destruct (enabled e (cw cfg)) eqn:Hen; [|done]. intros [= <- <- _]. eauto 10.
Qed.

Lemma action_of_classes {X : Type} (e : prim X) :
  (is_lock e = true -> action_of e = ALock) /\
  (action_of e = ALock -> is_lock e = true) /\
  (harmless e = true -> updates (action_of e) = false /\ action_of e <> AUnlock).
Proof. by destruct e. Qed.

(** X16. In every execution the mutex does its work: an action that
    changes [m.blocks] or [m.used] or allocates a block, and an [Unlock],
    is done by a goroutine that holds the mutex, and no other goroutine
    holds it; a [Lock] succeeds only when no goroutine holds it. *)
Theorem updates_hold_the_mutex (n : nat) (h : list event) (cfg : config)
    (h2 : list event) (t : nat) (a : action) (h1 : list event) :
  exec (init n) h cfg ->
  h = h2 ++ EvAct t a :: h1 ->
  (updates a = true \/ a = AUnlock ->
   holds t h1 = true /\ forall t', holds t' h1 = true -> t' = t) /\
  (a = ALock -> forall t', holds t' h1 = false).
Proof.
  intros He ->.
  destruct (exec_split _ _ _ _ _ He) as (cfg1 & ch & cfg1' & He1 & Hstep).
  pose proof (exec_inv _ _ _ He1) as [H1 H2 H3 H4 H5 H6].
  destruct (step_act_enabled _ _ _ _ _ Hstep) as (c & X & e & k & Ht & -> & Hen).
  destruct (action_of_classes e) as (Hlock & Hlock' & Hharm).
  specialize (H5 _ _ _ Ht). split.
  - intros Ha. destruct (holds t h1) eqn:Hh.
    + split; [done|]. intros t' Ht'. by apply (H3 t' t).
    + cbn [quiet calm] in H5. destruct (is_lock e) eqn:Hl.
      * rewrite (Hlock eq_refl) in Ha. by destruct Ha.
      * destruct H5 as [H5 _]. destruct (Hharm H5) as [Hu Hun].
        destruct Ha as [Ha|Ha]; congruence.
  - intros Ha t'. pose proof (is_lock_enabled e _ (Hlock' Ha) Hen) as Hm.
    destruct (holds t' h1) eqn:Hh; [|done]. rewrite (H2 _ Hh) in Hm. done.
Qed.

Lemma updates_hold_the_mutex_witness :
  exists h cfg h2 h1,
    schedule two_calls [] (init 2) = Some (h, cfg) /\
    h = h2 ++ EvAct 1 (AUsedStore (Pool 1, 0%nat) true) :: h1 /\
    (updates (AUsedStore (Pool 1, 0%nat) true) = true \/
     AUsedStore (Pool 1, 0%nat) true = AUnlock ->
     holds 1 h1 = true /\ forall t', holds t' h1 = true -> t' = 1%nat) /\
    (AUsedStore (Pool 1, 0%nat) true = ALock -> forall t', holds t' h1 = false).
Proof.
  eexists _, _, [_; _], _. split; [vm_compute; reflexivity|]. split; [reflexivity|].
  eapply (updates_hold_the_mutex 2 _ _ [_; _]);
    [eapply (schedule_exec (init 2) two_calls []);
       [apply exec_nil|vm_compute; reflexivity]
    |reflexivity].
Defined.

(** X17. In every execution, whenever the mutex is free no goroutine is
    inside a critical section and the manager is whole: 21 classes, every
    block of class [s] a whole array of the class size, every key of the
    checked-out set the first byte of a block, with value [true]. *)
Theorem manager_is_whole_when_mutex_is_free (n : nat) (h : list event) (cfg : config) :
  exec (init n) h cfg ->
  mutex (mgr (cw cfg)) = false ->
  (forall t, holds t h = false) /\
  length (blocks (mgr (cw cfg))) = numClasses /\
  (forall s l b, blocks (mgr (cw cfg)) !! s = Some l -> b ∈ l ->
                 block_ok (heap (cw cfg)) s b) /\
  (forall p v, used (mgr (cw cfg)) !! p = Some v ->
               v = true /\ exists s l b, blocks (mgr (cw cfg)) !! s = Some l /\ b ∈ l /\
                                         p = (sl_arr b, sl_off b)).
Proof.
  intros He Hm. pose proof (exec_inv _ _ _ He) as [H1 H2 H3 H4 H5 H6].
  split.
  - intros t. destruct (holds t h) eqn:Hh; [|done]. rewrite (H2 _ Hh) in Hm. done.
  - destruct (H1 Hm) as [Ha Hb Hc]. done.
Qed.

Lemma manager_is_whole_when_mutex_is_free_witness :
  exists h cfg,
    schedule two_calls [] (init 2) = Some (h, cfg) /\
    (forall t, holds t h = false) /\
    length (blocks (mgr (cw cfg))) = numClasses /\
    (forall s l b, blocks (mgr (cw cfg)) !! s = Some l -> b ∈ l ->
                   block_ok (heap (cw cfg)) s b) /\
    (forall p v, used (mgr (cw cfg)) !! p = Some v ->
                 v = true /\ exists s l b, blocks (mgr (cw cfg)) !! s = Some l /\ b ∈ l /\
                                           p = (sl_arr b, sl_off b)).
Proof.
  eexists _, _. split; [vm_compute; reflexivity|].
  eapply (manager_is_whole_when_mutex_is_free 2).
  - eapply (schedule_exec (init 2) two_calls []); [apply exec_nil|].
    vm_compute. reflexivity.
  - vm_compute. reflexivity.
Defined.
